(** * MiniBf (src/bf/bf.c): jump resolver, tape machine and C emitter

    A shallow embedding of the Brainfuck tool of the repository:
    [InitLoops] (the bracket matcher), [ExecuteSource] (the interpreter)
    and [bf_to_c] (the translator to C), followed by the properties the
    specification states about them.

    Conventions of the embedding.
    - C [int] and [short] values are [Z]; a conversion to [short] is
      written out as [short_of_int] (two's complement wrap-around, what
      gcc and clang do for this implementation-defined conversion).
    - The global arrays [tape] and [loops] are total functions [Z -> Z]
      (array contents by index).  An access to [tape] outside
      [0 .. TAPESIZE-1] and a signed [int] overflow have no defined
      behaviour in C: the operations return [None] there.
    - The execution character set is ASCII, so ['\n'] is 10.
    - Standard input is a list of characters, end-of-file is the empty
      list; standard output is the list of bytes written, oldest first. *)

From Stdlib Require Import ZArith List Ascii String Bool Lia DecimalString.
Import ListNotations.
Open Scope Z_scope.
Set Warnings "-register-all".

(* ================================================================== *)
(** ** Constants and machine integers *)

Definition TAPESIZE : Z := 16777216.
Definition INT_MAX : Z := 2147483647.
Definition SHRT_MAX : Z := 32767.

(** Conversion of an [int] to [short int] (16 bits, two's complement). *)
Definition short_of_int (z : Z) : Z := (z + 32768) mod 65536 - 32768.

(** Conversion of an [int] to [unsigned char]. *)
Definition uchar_of_int (z : Z) : Z := z mod 256.

Definition Z_of_ascii (a : ascii) : Z := Z.of_N (N_of_ascii a).

Definition bytes_of_string (s : string) : list Z :=
  map Z_of_ascii (list_ascii_of_string s).

(** What [printf("%d", z)] writes. *)
Definition fmt_d (z : Z) : string := NilZero.string_of_int (Z.to_int z).

Definition LF : ascii := "010"%char.
Definition ESC : ascii := "027"%char.
Definition nl : string := String LF EmptyString.

Definition COLOR_RESET : string := String ESC "[0m".
Definition COLOR_GREEN : string := String ESC "[32m".
Definition COLOR_YELLOW : string := String ESC "[33m".
Definition COLOR_RED : string := String ESC "[31m".

(** Array update: [a[i] = v]. *)
Definition upd (a : Z -> Z) (i v : Z) : Z -> Z :=
  fun j => if j =? i then v else a j.

(** [source[p]] for [0 <= p < source_length]. *)
Definition src_at (source : list ascii) (p : Z) : option ascii :=
  if p <? 0 then None else nth_error source (Z.to_nat p).

Definition source_length (source : list ascii) : Z := Z.of_nat (List.length source).

(* ================================================================== *)
(** ** Jump resolver: [InitLoops] *)

(** The two diagnostics [InitLoops] prints on stderr, by kind and byte
    position: "couldn't find matching '[' for ']' at byte p" and
    "couldn't find matching ']' for '[' at byte p". *)
Inductive bracket_error : Type :=
| MissingOpen (pos : Z)
| MissingClose (pos : Z).

(** [stack[0 .. stack_ptr-1]] is kept as a list, top first. *)
Record resolver : Type := mkResolver {
  stack : list Z;
  loops : Z -> Z;
  errors : list bracket_error
}.

(** Body of the scanning [for] loop at position [ptr]. *)
Definition scan_char (c : ascii) (ptr : Z) (r : resolver) : resolver :=
  let r1 :=
    if Ascii.eqb c "[" then mkResolver (ptr :: stack r) (loops r) (errors r)
    else r in
  if Ascii.eqb c "]" then
    match stack r1 with
    | [] => mkResolver [] (loops r1) (errors r1 ++ [MissingOpen ptr])
    | top :: below =>
        mkResolver below (upd (upd (loops r1) ptr top) top ptr) (errors r1)
    end
  else r1.

(** The scanning loop over [source[ptr ..]]. *)
Fixpoint scan (chars : list ascii) (ptr : Z) (r : resolver) : resolver :=
  match chars with
  | [] => r
  | c :: rest => scan rest (ptr + 1) (scan_char c ptr r)
  end.

(** [InitLoops]: [loops0] is the content of the global [loops] array on
    entry (all zero at program start, left over from the previous batch in
    interactive mode). *)
Definition InitLoops (source : list ascii) (loops0 : Z -> Z) : resolver :=
  let r := scan source 0 (mkResolver [] loops0 []) in
  match stack r with
  | [] => r
  | top :: below => mkResolver below (loops r) (errors r ++ [MissingClose top])
  end.

(* ================================================================== *)
(** ** Tape machine: [ExecuteSource] *)

Record machine : Type := mkMachine {
  tape : Z -> Z;
  cell : Z;
  max_cell_used : Z;
  source_ptr : Z;
  debug_counter : Z;
  memory_counter : Z;
  stdin : list ascii;
  stdout : list Z
}.

Definition in_tape (i : Z) : bool := (0 <=? i) && (i <? TAPESIZE).

Definition set_tape (st : machine) (t : Z -> Z) : machine :=
  mkMachine t (cell st) (max_cell_used st) (source_ptr st)
            (debug_counter st) (memory_counter st) (stdin st) (stdout st).

Definition set_source_ptr (st : machine) (p : Z) : machine :=
  mkMachine (tape st) (cell st) (max_cell_used st) p
            (debug_counter st) (memory_counter st) (stdin st) (stdout st).

Definition put (st : machine) (bytes : list Z) : machine :=
  mkMachine (tape st) (cell st) (max_cell_used st) (source_ptr st)
            (debug_counter st) (memory_counter st) (stdin st)
            (stdout st ++ bytes).

(** [printf("#%d: %d  ", i, tape[i]); if (i % 5 == 4) printf("\n");] *)
Definition dump_entry (t : Z -> Z) (i : Z) : list Z :=
  bytes_of_string ("#" ++ fmt_d i ++ ": " ++ fmt_d (t i) ++ "  ")%string
  ++ (if i mod 5 =? 4 then bytes_of_string nl else []).

(** The [for (i = 0; i <= max_cell_used; i++)] loop of the [@] dump. *)
Definition dump_cells (t : Z -> Z) (hi : Z) : list Z :=
  flat_map (fun n => dump_entry t (Z.of_nat n)) (seq 0 (Z.to_nat (hi + 1))).

(** One [case] of the [switch (source[source_ptr])]. *)
Definition exec_instr (loops : Z -> Z) (c : ascii) (st : machine)
  : option machine :=
  let v := tape st (cell st) in
  if Ascii.eqb c "+" then
    if in_tape (cell st)
    then Some (set_tape st (upd (tape st) (cell st) (short_of_int (v + 1))))
    else None
  else if Ascii.eqb c "-" then
    if in_tape (cell st)
    then Some (if v >? 0
               then set_tape st (upd (tape st) (cell st) (short_of_int (v - 1)))
               else st)
    else None
  else if Ascii.eqb c "<" then
    Some (mkMachine (tape st) (short_of_int (cell st - 1)) (max_cell_used st)
                    (source_ptr st) (debug_counter st) (memory_counter st)
                    (stdin st) (stdout st))
  else if Ascii.eqb c ">" then
    let cell' := short_of_int (cell st + 1) in
    Some (mkMachine (tape st) cell'
                    (if cell' >? max_cell_used st then cell'
                     else max_cell_used st)
                    (source_ptr st) (debug_counter st) (memory_counter st)
                    (stdin st) (stdout st))
  else if Ascii.eqb c "," then
    match stdin st with
    | [] => Some st
    | user_input :: rest =>
        if in_tape (cell st) then
          let stored := short_of_int (Z_of_ascii user_input) in
          let stored' := if stored =? Z_of_ascii LF then 10 else stored in
          Some (mkMachine (upd (tape st) (cell st) stored') (cell st)
                          (max_cell_used st) (source_ptr st)
                          (debug_counter st) (memory_counter st)
                          rest (stdout st))
        else None
    end
  else if Ascii.eqb c "." then
    if in_tape (cell st) then Some (put st [uchar_of_int v]) else None
  else if Ascii.eqb c "[" then
    if in_tape (cell st)
    then Some (if v =? 0 then set_source_ptr st (loops (source_ptr st)) else st)
    else None
  else if Ascii.eqb c "]" then
    if in_tape (cell st)
    then Some (if v =? 0 then st else set_source_ptr st (loops (source_ptr st)))
    else None
  else if Ascii.eqb c "#" then
    if in_tape (cell st) && (debug_counter st <? INT_MAX) then
      let text :=
        (COLOR_YELLOW ++ nl ++ nl ++ "# DEBUG INFO (" ++ fmt_d (debug_counter st)
        ++ "):" ++ nl ++ COLOR_RESET
        ++ "cell #" ++ fmt_d (cell st) ++ ": " ++ fmt_d v ++ nl)%string in
      Some (mkMachine (tape st) (cell st) (max_cell_used st) (source_ptr st)
                      (debug_counter st + 1) (memory_counter st)
                      (stdin st) (stdout st ++ bytes_of_string text))
    else None
  else if Ascii.eqb c "@" then
    if (memory_counter st <? INT_MAX) && (max_cell_used st <? TAPESIZE) then
      let head :=
        (COLOR_GREEN ++ nl ++ nl ++ "@ DEBUG INFO (" ++ fmt_d (memory_counter st)
        ++ "):" ++ nl ++ COLOR_RESET)%string in
      Some (mkMachine (tape st) (cell st) (max_cell_used st) (source_ptr st)
                      (debug_counter st) (memory_counter st + 1)
                      (stdin st)
                      (stdout st ++ bytes_of_string head
                       ++ dump_cells (tape st) (max_cell_used st)
                       ++ bytes_of_string nl))
    else None
  else Some st.

(** One iteration of the [for] loop of [ExecuteSource]: the [switch] on
    [source[source_ptr]], then [source_ptr++]. *)
Definition step (source : list ascii) (loops : Z -> Z) (st : machine)
  : option machine :=
  match src_at source (source_ptr st) with
  | None => None
  | Some c =>
      match exec_instr loops c st with
      | None => None
      | Some st' => Some (set_source_ptr st' (source_ptr st' + 1))
      end
  end.

(** The [for] loop, bounded by [fuel] iterations: [Some st] is the state
    in which the loop condition [source_ptr < source_length] fails. *)
Fixpoint run_loop (fuel : nat) (source : list ascii) (loops : Z -> Z)
  (st : machine) : option machine :=
  if source_ptr st <? source_length source then
    match fuel with
    | O => None
    | S fuel' =>
        match step source loops st with
        | None => None
        | Some st' => run_loop fuel' source loops st'
        end
    end
  else Some st.

(** [ExecuteSource]: resolve the jumps, run from [source_ptr = 0], print
    the final newline.  The diagnostics of the resolver are
    [errors (InitLoops source loops0)]. *)
Definition ExecuteSource (fuel : nat) (source : list ascii) (loops0 : Z -> Z)
  (st : machine) : option machine :=
  let r := InitLoops source loops0 in
  match run_loop fuel source (loops r) (set_source_ptr st 0) with
  | None => None
  | Some st' => Some (put st' (bytes_of_string nl))
  end.

(** The machine at program start and after the reset of the interactive
    loop: zeroed tape, [cell = 0], [max_cell_used = 0], counters at 1. *)
Definition fresh (input : list ascii) : machine :=
  mkMachine (fun _ => 0) 0 0 0 1 1 input [].

Definition zero_loops : Z -> Z := fun _ => 0.

Definition prog (s : string) : list ascii := list_ascii_of_string s.

(* ================================================================== *)
(** ** Source emitter: [bf_to_c] *)

Definition TAB : ascii := "009"%char.
Definition DQUOTE : ascii := "034"%char.
Definition tab : string := String TAB EmptyString.
Definition dquote : string := String DQUOTE EmptyString.

Open Scope string_scope.

(** The text written before the first translated instruction
    ([cellsize] is [TAPESIZE]). *)
Definition c_header : string :=
  "#include <stdio.h>" ++ nl ++
  "#include <stdlib.h>" ++ nl ++ nl ++
  "int main(int argc, char **argv)" ++ nl ++ "{" ++ nl ++
  tab ++ "unsigned char *cell = calloc(" ++ fmt_d TAPESIZE ++ ", 1);" ++ nl ++
  tab ++ "unsigned char *cells = cell;" ++ nl ++
  tab ++ "if (!cell) {" ++ nl ++
  tab ++ tab ++ "fprintf(stderr, " ++ dquote ++ "Error allocating memory.\n"
      ++ dquote ++ ");" ++ nl ++
  tab ++ tab ++ "return 1;" ++ nl ++
  tab ++ "}" ++ nl ++ nl.

Definition c_footer : string :=
  nl ++ tab ++ "free(cells);" ++ nl ++ tab ++ "return 0;" ++ nl ++ "}" ++ nl ++ nl.

(** The [switch (c)] of the translation loop: the text written for one
    character of the input file. *)
Definition emit_char (c : ascii) : string :=
  if Ascii.eqb c ">" then tab ++ tab ++ "++cell;" ++ nl
  else if Ascii.eqb c "<" then tab ++ tab ++ "--cell;" ++ nl
  else if Ascii.eqb c "+" then tab ++ tab ++ "++*cell;" ++ nl
  else if Ascii.eqb c "-" then tab ++ tab ++ "--*cell;" ++ nl
  else if Ascii.eqb c "." then tab ++ tab ++ "putchar(" ++ "*cell);" ++ nl
  else if Ascii.eqb c "," then tab ++ tab ++ "*cell = getchar();" ++ nl
  else if Ascii.eqb c "[" then tab ++ "while (" ++ "*cell) {" ++ nl
  else if Ascii.eqb c "]" then tab ++ "}" ++ nl
  else "".

(** The loop [while ((c = getc(in)) != EOF)] over the input file. *)
Fixpoint emit_loop (input : list ascii) : string :=
  match input with
  | [] => ""
  | c :: rest => emit_char c ++ emit_loop rest
  end.

(** [bf_to_c]: the content of the output file for the content [input] of
    the input file. *)
Definition bf_to_c (input : list ascii) : string :=
  c_header ++ emit_loop input ++ c_footer.

Close Scope string_scope.

(* ------------------------------------------------------------------ *)
(** *** The emitted program as a C program

    Between header and footer the emitted text is a sequence of eight
    possible lines.  [token] names them, [parse] groups them the way the C
    grammar does (the line opening a [while] with the line closing
    it), and [c_exec] runs the resulting statements on the array of
    [TAPESIZE] zeroed [unsigned char] the header allocates. *)

Inductive token : Type :=
| TIncPtr
| TDecPtr
| TIncCell
| TDecCell
| TPutChar
| TGetChar
| TWhile
| TClose.

Definition token_text (t : token) : string :=
  (match t with
   | TIncPtr => tab ++ tab ++ "++cell;" ++ nl
   | TDecPtr => tab ++ tab ++ "--cell;" ++ nl
   | TIncCell => tab ++ tab ++ "++*cell;" ++ nl
   | TDecCell => tab ++ tab ++ "--*cell;" ++ nl
   | TPutChar => tab ++ tab ++ "putchar(" ++ "*cell);" ++ nl
   | TGetChar => tab ++ tab ++ "*cell = getchar();" ++ nl
   | TWhile => tab ++ "while (" ++ "*cell) {" ++ nl
   | TClose => tab ++ "}" ++ nl
   end)%string.

Fixpoint token_lines (ts : list token) : string :=
  match ts with
  | [] => EmptyString
  | t :: rest => (token_text t ++ token_lines rest)%string
  end.

(** The line [bf_to_c] writes for a character, as a token. *)
Definition token_of_char (c : ascii) : option token :=
  if Ascii.eqb c ">" then Some TIncPtr
  else if Ascii.eqb c "<" then Some TDecPtr
  else if Ascii.eqb c "+" then Some TIncCell
  else if Ascii.eqb c "-" then Some TDecCell
  else if Ascii.eqb c "." then Some TPutChar
  else if Ascii.eqb c "," then Some TGetChar
  else if Ascii.eqb c "[" then Some TWhile
  else if Ascii.eqb c "]" then Some TClose
  else None.

Fixpoint tokens (input : list ascii) : list token :=
  match input with
  | [] => []
  | c :: rest =>
      match token_of_char c with
      | Some t => t :: tokens rest
      | None => tokens rest
      end
  end.

(** Statements of the emitted program. *)
Inductive cstmt : Type :=
| SIncPtr
| SDecPtr
| SIncCell
| SDecCell
| SPutChar
| SGetChar
| SWhile (body : list cstmt).

(** Statements up to the end of the enclosing block: the result is the
    block and the tokens that follow it, starting at its [}] if any. *)
Fixpoint parse_block (fuel : nat) (ts : list token)
  : option (list cstmt * list token) :=
  match fuel with
  | O => None
  | S fuel' =>
      let simple s rest :=
        match parse_block fuel' rest with
        | Some (more, after) => Some (s :: more, after)
        | None => None
        end in
      match ts with
      | [] => Some ([], [])
      | TClose :: _ => Some ([], ts)
      | TWhile :: rest =>
          match parse_block fuel' rest with
          | Some (body, TClose :: rest') =>
              match parse_block fuel' rest' with
              | Some (more, after) => Some (SWhile body :: more, after)
              | None => None
              end
          | _ => None
          end
      | TIncPtr :: rest => simple SIncPtr rest
      | TDecPtr :: rest => simple SDecPtr rest
      | TIncCell :: rest => simple SIncCell rest
      | TDecCell :: rest => simple SDecCell rest
      | TPutChar :: rest => simple SPutChar rest
      | TGetChar :: rest => simple SGetChar rest
      end
  end.

(** The body of the emitted [main]; [None] when the braces do not match
    (the C compiler rejects the file). *)
Definition parse (ts : list token) : option (list cstmt) :=
  match parse_block (S (List.length ts)) ts with
  | Some (p, []) => Some p
  | _ => None
  end.

(** State of the emitted program: the [calloc]ed bytes, the offset of
    [cell] from [cells], and the two streams. *)
Record cstate : Type := mkCstate {
  cells : Z -> Z;
  cptr : Z;
  cin : list ascii;
  cout : list Z
}.

Definition EOF : Z := -1.

(** The statements other than [while]; [None] where C leaves the
    behaviour undefined (pointer outside the allocation). *)
Definition exec_atom (s : cstmt) (cs : cstate) : option cstate :=
  let v := cells cs (cptr cs) in
  match s with
  | SIncPtr =>
      if cptr cs + 1 <=? TAPESIZE
      then Some (mkCstate (cells cs) (cptr cs + 1) (cin cs) (cout cs))
      else None
  | SDecPtr =>
      if 0 <=? cptr cs - 1
      then Some (mkCstate (cells cs) (cptr cs - 1) (cin cs) (cout cs))
      else None
  | SIncCell =>
      if in_tape (cptr cs)
      then Some (mkCstate (upd (cells cs) (cptr cs) (uchar_of_int (v + 1)))
                          (cptr cs) (cin cs) (cout cs))
      else None
  | SDecCell =>
      if in_tape (cptr cs)
      then Some (mkCstate (upd (cells cs) (cptr cs) (uchar_of_int (v - 1)))
                          (cptr cs) (cin cs) (cout cs))
      else None
  | SPutChar =>
      if in_tape (cptr cs)
      then Some (mkCstate (cells cs) (cptr cs) (cin cs)
                          (cout cs ++ [uchar_of_int v]))
      else None
  | SGetChar =>
      if in_tape (cptr cs) then
        match cin cs with
        | [] => Some (mkCstate (upd (cells cs) (cptr cs) (uchar_of_int EOF))
                               (cptr cs) [] (cout cs))
        | ch :: rest =>
            Some (mkCstate (upd (cells cs) (cptr cs)
                                (uchar_of_int (Z_of_ascii ch)))
                           (cptr cs) rest (cout cs))
        end
      else None
  | SWhile _ => None
  end.

(** Execution of a statement list, one unit of [fuel] per statement and
    per loop test.  [ok] is a side condition checked before every simple
    statement: with [ok] constantly true this is the plain semantics. *)
Fixpoint c_exec_within (ok : cstmt -> cstate -> bool) (fuel : nat)
  (p : list cstmt) (cs : cstate) : option cstate :=
  match fuel with
  | O => None
  | S fuel' =>
      match p with
      | [] => Some cs
      | SWhile body :: rest =>
          if in_tape (cptr cs) then
            if cells cs (cptr cs) =? 0 then c_exec_within ok fuel' rest cs
            else
              match c_exec_within ok fuel' body cs with
              | Some cs' => c_exec_within ok fuel' p cs'
              | None => None
              end
          else None
      | s :: rest =>
          if ok s cs then
            match exec_atom s cs with
            | Some cs' => c_exec_within ok fuel' rest cs'
            | None => None
            end
          else None
      end
  end.

Definition c_exec : nat -> list cstmt -> cstate -> option cstate :=
  c_exec_within (fun _ _ => true).

Definition c_fresh (input : list ascii) : cstate :=
  mkCstate (fun _ => 0) 0 input [].

(** Compile and run [bf_to_c input] on standard input [inp]. *)
Definition run_emitted (fuel : nat) (input : list ascii) (inp : list ascii)
  : option cstate :=
  match parse (tokens input) with
  | Some p => c_exec fuel p (c_fresh inp)
  | None => None
  end.

(** The simple statements on which the emitted program and the tape
    machine do the same thing: the pointer stays within a [short], no
    byte wraps, no read hits end-of-file. *)
Definition agrees (s : cstmt) (cs : cstate) : bool :=
  match s with
  | SIncPtr => cptr cs <? SHRT_MAX
  | SIncCell => cells cs (cptr cs) <? 255
  | SDecCell => 0 <? cells cs (cptr cs)
  | SGetChar => match cin cs with [] => false | _ => true end
  | _ => true
  end.

(* ================================================================== *)
(** ** Notions used by the statements *)

(** A stack whose every entry is larger than the entries below it:
    the top is the largest. *)
Fixpoint descending (stk : list Z) : Prop :=
  match stk with
  | [] => True
  | top :: below => Forall (fun p => p < top) below /\ descending below
  end.

(** Reports of an open bracket left without its close. *)
Definition is_missing_close (e : bracket_error) : bool :=
  match e with MissingClose _ => true | MissingOpen _ => false end.

(** Bracket balance by depth counting: no close below depth 0, depth 0
    at the end. *)
Fixpoint bal (depth : nat) (chars : list ascii) : bool :=
  match chars with
  | [] => Nat.eqb depth 0
  | c :: rest =>
      if Ascii.eqb c "[" then bal (S depth) rest
      else if Ascii.eqb c "]" then
        match depth with
        | O => false
        | S d => bal d rest
        end
      else bal depth rest
  end.

Definition balanced (source : list ascii) : Prop := bal 0 source = true.

(** The simple statement written for a character. *)
Definition atom_of_char (c : ascii) : option cstmt :=
  if Ascii.eqb c ">" then Some SIncPtr
  else if Ascii.eqb c "<" then Some SDecPtr
  else if Ascii.eqb c "+" then Some SIncCell
  else if Ascii.eqb c "-" then Some SDecCell
  else if Ascii.eqb c "." then Some SPutChar
  else if Ascii.eqb c "," then Some SGetChar
  else None.

(** [nested l p]: the characters [l] are a balanced piece of program
    whose loop structure is that of the statement list [p]. *)
Inductive nested : list ascii -> list cstmt -> Prop :=
| nested_nil : nested [] []
| nested_comment c l p :
    token_of_char c = None -> nested l p -> nested (c :: l) p
| nested_atom c s l p :
    atom_of_char c = Some s -> nested l p -> nested (c :: l) (s :: p)
| nested_loop body rest pb pr :
    nested body pb -> nested rest pr ->
    nested ("["%char :: body ++ "]"%char :: rest) (SWhile pb :: pr).

(** [linked source lp lo hi p]: positions [lo .. hi-1] of [source] are a
    balanced piece with structure [p], and the jump table [lp] maps the
    two brackets of each of its loops to one another. *)
Inductive linked (source : list ascii) (lp : Z -> Z)
  : Z -> Z -> list cstmt -> Prop :=
| linked_nil lo : linked source lp lo lo []
| linked_comment lo hi c p :
    src_at source lo = Some c -> token_of_char c = None ->
    linked source lp (lo + 1) hi p -> linked source lp lo hi p
| linked_atom lo hi c s p :
    src_at source lo = Some c -> atom_of_char c = Some s ->
    linked source lp (lo + 1) hi p -> linked source lp lo hi (s :: p)
| linked_loop lo mid hi pb pr :
    src_at source lo = Some "["%char -> src_at source mid = Some "]"%char ->
    lp lo = mid -> lp mid = lo ->
    linked source lp (lo + 1) mid pb -> linked source lp (mid + 1) hi pr ->
    linked source lp lo hi (SWhile pb :: pr).

(** [l] is the part of [source] that starts at position [ptr]. *)
Definition sits (source : list ascii) (ptr : Z) (l : list ascii) : Prop :=
  forall k c, src_at l k = Some c -> src_at source (ptr + k) = Some c.

(** What follows a block: nothing, or the brace that closes it. *)
Definition block_end (ts : list token) : Prop :=
  ts = [] \/ exists r, ts = TClose :: r.

(** No debug instruction in the program. *)
Definition no_debug (source : list ascii) : Prop :=
  Forall (fun c => c <> "#"%char /\ c <> "@"%char) source.

(** The tape machine and the emitted program in the same situation:
    same cells, all of them bytes, same pointer within a [short], same
    input left, same output so far. *)
Record related (st : machine) (cs : cstate) : Prop := mkRelated {
  rel_cells : forall k, tape st k = cells cs k;
  rel_bytes : forall k, 0 <= cells cs k <= 255;
  rel_ptr : cell st = cptr cs;
  rel_range : 0 <= cptr cs <= SHRT_MAX;
  rel_in : stdin st = cin cs;
  rel_out : stdout st = cout cs
}.

(** Iterations of the [for] loop of [ExecuteSource]. *)
Inductive steps (source : list ascii) (lp : Z -> Z)
  : machine -> machine -> Prop :=
| steps_refl st : steps source lp st st
| steps_step st st1 st2 :
    step source lp st = Some st1 -> steps source lp st1 st2 ->
    steps source lp st st2.

(** [agrees] seen from the machine: the instructions on which it does
    what the emitted program does.  The cell pointer stays within
    [0 .. SHRT_MAX], no cell leaves [0 .. 255], no read hits
    end-of-file. *)
Definition benign (c : ascii) (st : machine) : bool :=
  if Ascii.eqb c ">" then cell st <? SHRT_MAX
  else if Ascii.eqb c "<" then 0 <? cell st
  else if Ascii.eqb c "+" then tape st (cell st) <? 255
  else if Ascii.eqb c "-" then 0 <? tape st (cell st)
  else if Ascii.eqb c "," then match stdin st with [] => false | _ => true end
  else true.

(** [run_loop] with a side condition checked before every instruction:
    [None] as soon as an instruction fails it. *)
Fixpoint run_loop_within (ok : ascii -> machine -> bool) (fuel : nat)
  (source : list ascii) (loops : Z -> Z) (st : machine) : option machine :=
  if source_ptr st <? source_length source then
    match fuel with
    | O => None
    | S fuel' =>
        match src_at source (source_ptr st) with
        | None => None
        | Some c =>
            if ok c st then
              match step source loops st with
              | None => None
              | Some st' => run_loop_within ok fuel' source loops st'
              end
            else None
        end
    end
  else Some st.

(* ------------------------------------------------------------------ *)
(** *** Notions used by the further properties *)

(** What holds of the resolver when the scan of [source] has reached
    position [ptr]: the stack holds distinct positions of open brackets
    seen so far; the reports are closes seen so far; every close seen and
    not reported, and every open seen and no longer on the stack, is
    linked with its partner; [loops] differs from its content on entry
    [loops0] at bracket positions only. *)
Record scan_inv (source : list ascii) (loops0 : Z -> Z) (ptr : Z)
  (r : resolver) : Prop := mkScanInv {
  inv_stack : forall i, In i (stack r) ->
    0 <= i < ptr /\ src_at source i = Some "["%char;
  inv_nodup : NoDup (stack r);
  inv_errors : forall e, In e (errors r) ->
    exists j, e = MissingOpen j /\ 0 <= j < ptr /\
              src_at source j = Some "]"%char;
  inv_close : forall j,
    0 <= j < ptr -> src_at source j = Some "]"%char ->
    ~ In (MissingOpen j) (errors r) ->
    0 <= loops r j < j /\ src_at source (loops r j) = Some "["%char /\
    loops r (loops r j) = j /\ ~ In (loops r j) (stack r);
  inv_open : forall i,
    0 <= i < ptr -> src_at source i = Some "["%char -> ~ In i (stack r) ->
    i < loops r i < ptr /\ src_at source (loops r i) = Some "]"%char /\
    loops r (loops r i) = i /\ ~ In (MissingOpen (loops r i)) (errors r);
  inv_frame : forall i,
    src_at source i <> Some "["%char -> src_at source i <> Some "]"%char ->
    loops r i = loops0 i
}.

(** Balance of the braces of a token list, as [bal] on characters. *)
Fixpoint tbal (depth : nat) (ts : list token) : bool :=
  match ts with
  | [] => Nat.eqb depth 0
  | TWhile :: rest => tbal (S depth) rest
  | TClose :: rest =>
      match depth with
      | O => false
      | S d => tbal d rest
      end
  | _ :: rest => tbal depth rest
  end.

(** The values the variables of the machine can hold: [cell] and
    [max_cell_used] are [short], the latter never negative, the cells are
    [short], the counters start at 1. *)
Record machine_ok (st : machine) : Prop := mkMachineOk {
  ok_cell : -32768 <= cell st <= SHRT_MAX;
  ok_max : 0 <= max_cell_used st <= SHRT_MAX;
  ok_tape : forall k, -32768 <= tape st k <= SHRT_MAX;
  ok_debug : 1 <= debug_counter st;
  ok_memory : 1 <= memory_counter st
}.

(** Programs without loops and without a move to the left. *)
Definition straight_line (l : list ascii) : Prop :=
  Forall (fun c => c <> "["%char /\ c <> "]"%char /\ c <> "<"%char) l.

(** Number of moves to the right in a program. *)
Definition count_right (l : list ascii) : Z :=
  Z.of_nat (count_occ ascii_dec l ">"%char).

(** [st'] differs from [st] in the current cell and the cursor at
    most. *)
Definition same_but_cell (st st' : machine) : Prop :=
  cell st' = cell st /\
  (forall k, k <> cell st -> tape st' k = tape st k) /\
  max_cell_used st' = max_cell_used st /\
  debug_counter st' = debug_counter st /\
  memory_counter st' = memory_counter st /\
  stdin st' = stdin st /\ stdout st' = stdout st.

(** Programs without loops. *)
Definition no_brackets (l : list ascii) : Prop :=
  Forall (fun c => c <> "["%char /\ c <> "]"%char) l.

(* ------------------------------------------------------------------ *)
(** *** The program read as structured loops

    A balanced program is a sequence of characters other than brackets
    and of loops.  [m_exec] runs it as such, bracket by bracket, with the
    [switch] of the machine itself ([exec_instr]) for every character; it
    needs no jump table and no cursor. *)

Inductive instr : Type :=
| IChar (c : ascii)
| ILoop (body : list instr).

(** The characters of a structured program. *)
Fixpoint flatten_instr (i : instr) : list ascii :=
  match i with
  | IChar c => [c]
  | ILoop body => "["%char :: flat_map flatten_instr body ++ ["]"%char]
  end.

Definition flatten (p : list instr) : list ascii :=
  flat_map flatten_instr p.

(** [shape l p]: the characters [l] are the balanced program [p]. *)
Inductive shape : list ascii -> list instr -> Prop :=
| shape_nil : shape [] []
| shape_char c l p :
    c <> "["%char -> c <> "]"%char -> shape l p ->
    shape (c :: l) (IChar c :: p)
| shape_loop body rest pb pr :
    shape body pb -> shape rest pr ->
    shape ("["%char :: body ++ "]"%char :: rest) (ILoop pb :: pr).

(** [placed source lp lo hi p]: positions [lo .. hi-1] of [source] are the
    program [p], and the jump table [lp] maps the two brackets of each of
    its loops to one another. *)
Inductive placed (source : list ascii) (lp : Z -> Z)
  : Z -> Z -> list instr -> Prop :=
| placed_nil lo : placed source lp lo lo []
| placed_char lo hi c p :
    src_at source lo = Some c -> c <> "["%char -> c <> "]"%char ->
    placed source lp (lo + 1) hi p ->
    placed source lp lo hi (IChar c :: p)
| placed_loop lo mid hi pb pr :
    src_at source lo = Some "["%char -> src_at source mid = Some "]"%char ->
    lp lo = mid -> lp mid = lo ->
    placed source lp (lo + 1) mid pb -> placed source lp (mid + 1) hi pr ->
    placed source lp lo hi (ILoop pb :: pr).

(** Structured execution: a loop tests the current cell before each
    round of its body.  One unit of [fuel] per character and per test. *)
Fixpoint m_exec (fuel : nat) (p : list instr) (st : machine)
  : option machine :=
  match fuel with
  | O => None
  | S fuel' =>
      match p with
      | [] => Some st
      | IChar c :: rest =>
          match exec_instr zero_loops c st with
          | Some st' => m_exec fuel' rest st'
          | None => None
          end
      | ILoop body :: rest =>
          if in_tape (cell st) then
            if tape st (cell st) =? 0 then m_exec fuel' rest st
            else
              match m_exec fuel' body st with
              | Some st' => m_exec fuel' p st'
              | None => None
              end
          else None
      end
  end.

(** The ten characters that have a [case] in the [switch] of
    [ExecuteSource]. *)
Definition is_command (c : ascii) : bool :=
  Ascii.eqb c "+" || Ascii.eqb c "-" || Ascii.eqb c "<" || Ascii.eqb c ">"
  || Ascii.eqb c "," || Ascii.eqb c "." || Ascii.eqb c "[" || Ascii.eqb c "]"
  || Ascii.eqb c "#" || Ascii.eqb c "@".

(** [stripped p q]: [q] is [p] without the characters that are no
    commands. *)
Inductive stripped : list instr -> list instr -> Prop :=
| stripped_nil : stripped [] []
| stripped_drop c p q :
    is_command c = false -> stripped p q -> stripped (IChar c :: p) q
| stripped_keep c p q :
    is_command c = true -> stripped p q ->
    stripped (IChar c :: p) (IChar c :: q)
| stripped_loop pb qb pr qr :
    stripped pb qb -> stripped pr qr ->
    stripped (ILoop pb :: pr) (ILoop qb :: qr).

(** What the scan has left alone when it has reached [ptr]: the
    entries of [loops] from [ptr] on, those of the open brackets still on
    the stack and those of the reported close brackets. *)
Record scan_untouched (loops0 : Z -> Z) (ptr : Z) (r : resolver)
  : Prop := mkScanUntouched {
  unt_ahead : forall i, ptr <= i -> loops r i = loops0 i;
  unt_pending : forall i, In i (stack r) -> loops r i = loops0 i;
  unt_reported : forall j, In (MissingOpen j) (errors r) ->
    loops r j = loops0 j
}.

(** Case analysis on every [if] and [match] of a hypothesis. *)
Ltac break_match_in H :=
  repeat match type of H with
         | context [if ?b then _ else _] => destruct b eqn:?
         | context [match ?x with _ => _ end] => destruct x eqn:?
         end.

(* ================================================================== *)
(** ** Properties of single steps *)

Lemma short_of_int_id z : -32768 <= z <= 32767 -> short_of_int z = z.
Proof.
  intros H. unfold short_of_int.
  rewrite Z.mod_small by lia. lia.
Qed.

Lemma short_of_int_range z : -32768 <= short_of_int z <= 32767.
Proof.
  unfold short_of_int.
  pose proof (Z.mod_pos_bound (z + 32768) 65536 ltac:(lia)). lia.
Qed.

Lemma Z_of_ascii_range a : 0 <= Z_of_ascii a < 256.
Proof.
  unfold Z_of_ascii. pose proof (N_ascii_bounded a). lia.
Qed.

Lemma upd_same a i v : upd a i v i = v.
Proof. unfold upd. now rewrite Z.eqb_refl. Qed.

Lemma upd_other a i v j : j <> i -> upd a i v j = a j.
Proof. unfold upd. intros H. apply Z.eqb_neq in H. now rewrite H. Qed.

(** C3.  On a cell holding a [short], decrement saturates: at zero the
    cell stays zero and a non-negative cell never becomes negative;
    increment wraps within the 16 bits: from 32767 it goes to -32768. *)
Theorem decrement_saturates_increment_wraps :
  forall source lp st,
    in_tape (cell st) = true ->
    -32768 <= tape st (cell st) <= 32767 ->
    (src_at source (source_ptr st) = Some "-"%char ->
     exists st', step source lp st = Some st' /\ cell st' = cell st /\
       (tape st (cell st) = 0 -> tape st' (cell st') = 0) /\
       (0 <= tape st (cell st) -> 0 <= tape st' (cell st')) /\
       (0 < tape st (cell st) -> tape st' (cell st') = tape st (cell st) - 1))
    /\
    (src_at source (source_ptr st) = Some "+"%char ->
     exists st', step source lp st = Some st' /\ cell st' = cell st /\
       (tape st (cell st) < 32767 ->
        tape st' (cell st') = tape st (cell st) + 1) /\
       (tape st (cell st) = 32767 -> tape st' (cell st') = -32768)).
Proof.
  intros source lp st Hin Hv. split; intros Hc; unfold step; rewrite Hc;
    unfold exec_instr; cbn [Ascii.eqb Bool.eqb]; rewrite Hin.
  - destruct (tape st (cell st) >? 0) eqn:Hpos; rewrite Z.gtb_ltb in Hpos.
    + apply Z.ltb_lt in Hpos.
      eexists. split; [reflexivity|]. cbn. rewrite upd_same.
      rewrite short_of_int_id by lia.
      repeat split; intros; lia.
    + apply Z.ltb_ge in Hpos.
      eexists. split; [reflexivity|]. cbn.
      repeat split; intros; lia.
  - eexists. split; [reflexivity|]. cbn. rewrite upd_same.
    repeat split; intros H.
    + rewrite short_of_int_id; lia.
    + rewrite H. reflexivity.
Qed.

Lemma decrement_saturates_increment_wraps_witness :
  (exists st', step (prog "-") zero_loops (fresh []) = Some st' /\
               tape st' (cell st') = 0) /\
  (exists st', step (prog "+") zero_loops
                 (set_tape (fresh []) (fun _ => 32767)) = Some st' /\
               tape st' (cell st') = -32768).
Proof.
  split.
  - destruct (decrement_saturates_increment_wraps (prog "-") zero_loops
                (fresh []) eq_refl ltac:(cbn; lia)) as [Hdec _].
    destruct (Hdec eq_refl) as (st' & Hs & _ & H0 & _).
    exists st'. split; [exact Hs | apply H0; reflexivity].
  - destruct (decrement_saturates_increment_wraps (prog "+") zero_loops
                (set_tape (fresh []) (fun _ => 32767)) eq_refl
                ltac:(cbn; lia)) as [_ Hinc].
    destruct (Hinc eq_refl) as (st' & Hs & _ & _ & Hw).
    exists st'. split; [exact Hs | apply Hw; reflexivity].
Defined.

(** C4 as stated fails: after a taken branch the cursor is not on the
    partner bracket.  On the program [[]] with a zero cell, the step at
    the open bracket leaves the cursor at 2, one past the close at 1. *)
Lemma branch_lands_on_partner_counterexample :
  ~ (forall source lp st st',
        src_at source (source_ptr st) = Some "["%char ->
        tape st (cell st) = 0 ->
        step source lp st = Some st' ->
        source_ptr st' = lp (source_ptr st)).
Proof.
  intros H.
  specialize (H (prog "[]") (loops (InitLoops (prog "[]") zero_loops))
                (fresh []) _ eq_refl eq_refl eq_refl).
  cbn in H. discriminate H.
Qed.

(** C4, amended.  A bracket instruction on a cell of the tape is a
    defined step, and every defined step leaves the cursor one past the
    position the [switch] left it at: one past the matching close after an
    open bracket on a zero cell, one past the matching open after a close
    bracket on a non-zero cell, and one past the instruction itself in
    every other case.  The partner bracket is therefore not evaluated. *)
Theorem cursor_after_step :
  forall source lp st c,
    src_at source (source_ptr st) = Some c ->
    (c = "["%char \/ c = "]"%char -> in_tape (cell st) = true ->
     exists st', step source lp st = Some st') /\
    (forall st',
        step source lp st = Some st' ->
        (c = "["%char -> tape st (cell st) = 0 ->
         source_ptr st' = lp (source_ptr st) + 1) /\
        (c = "]"%char -> tape st (cell st) <> 0 ->
         source_ptr st' = lp (source_ptr st) + 1) /\
        (c = "["%char -> tape st (cell st) <> 0 ->
         source_ptr st' = source_ptr st + 1) /\
        (c = "]"%char -> tape st (cell st) = 0 ->
         source_ptr st' = source_ptr st + 1) /\
        (c <> "["%char -> c <> "]"%char ->
         source_ptr st' = source_ptr st + 1)).
Proof.
  intros source lp st c Hc. split.
  - intros Hbr Hin. unfold step. rewrite Hc. unfold exec_instr.
    destruct Hbr as [-> | ->]; cbn [Ascii.eqb Bool.eqb]; rewrite Hin; eauto.
  - intros st' Hs.
    unfold step in Hs. rewrite Hc in Hs.
    destruct (exec_instr lp c st) as [st1|] eqn:He; [|discriminate].
    injection Hs as <-. cbn [source_ptr set_source_ptr].
    unfold exec_instr in He.
    split; [|split; [|split; [|split]]].
    + intros -> Hz. cbn [Ascii.eqb Bool.eqb] in He. rewrite Hz in He.
      cbn in He. destruct (in_tape (cell st)); inversion He; reflexivity.
    + intros -> Hnz. cbn [Ascii.eqb Bool.eqb] in He.
      apply Z.eqb_neq in Hnz. rewrite Hnz in He.
      destruct (in_tape (cell st)); inversion He; reflexivity.
    + intros -> Hnz. cbn [Ascii.eqb Bool.eqb] in He.
      apply Z.eqb_neq in Hnz. rewrite Hnz in He.
      destruct (in_tape (cell st)); inversion He; reflexivity.
    + intros -> Hz. cbn [Ascii.eqb Bool.eqb] in He. rewrite Hz in He.
      cbn in He. destruct (in_tape (cell st)); inversion He; reflexivity.
    + intros Hno Hnc. apply Ascii.eqb_neq in Hno, Hnc.
      rewrite Hno, Hnc in He.
      break_match_in He; inversion He; reflexivity.
Qed.

Lemma cursor_after_step_witness :
  exists st', step (prog "[]") (loops (InitLoops (prog "[]") zero_loops))
                (fresh []) = Some st' /\ source_ptr st' = 2.
Proof.
  destruct (cursor_after_step (prog "[]")
              (loops (InitLoops (prog "[]") zero_loops)) (fresh []) "["%char
              eq_refl) as [Hdef Hcur].
  destruct (Hdef (or_introl eq_refl) eq_refl) as [st' Hs].
  exists st'. split; [exact Hs|].
  destruct (Hcur st' Hs) as [H _].
  rewrite (H eq_refl eq_refl). reflexivity.
Defined.

(** C6.  A read at end of input leaves the whole machine but the cursor
    as it was; a read of a character stores its code in the current cell,
    and the code stored for a line feed is 10. *)
Theorem read_input_eof_and_newline :
  forall source lp st,
    src_at source (source_ptr st) = Some ","%char ->
    (stdin st = [] ->
     exists st', step source lp st = Some st' /\
       tape st' = tape st /\ cell st' = cell st /\
       stdout st' = stdout st /\ stdin st' = []) /\
    (forall ch rest, stdin st = ch :: rest -> in_tape (cell st) = true ->
     exists st', step source lp st = Some st' /\
       cell st' = cell st /\ stdin st' = rest /\
       tape st' (cell st') = Z_of_ascii ch /\
       (ch = LF -> tape st' (cell st') = 10) /\
       (forall j, j <> cell st -> tape st' j = tape st j)).
Proof.
  intros source lp st Hc. split.
  - intros Hin. unfold step. rewrite Hc. unfold exec_instr.
    cbn [Ascii.eqb Bool.eqb]. rewrite Hin.
    eexists. split; [reflexivity|]. cbn. now rewrite Hin.
  - intros ch rest Hin Hcell. unfold step. rewrite Hc. unfold exec_instr.
    cbn [Ascii.eqb Bool.eqb]. rewrite Hin, Hcell.
    eexists. split; [reflexivity|].
    cbn [tape cell stdin stdout set_source_ptr].
    pose proof (Z_of_ascii_range ch) as Hr.
    rewrite upd_same, short_of_int_id by lia.
    assert (Hst : (if Z_of_ascii ch =? Z_of_ascii LF then 10
                   else Z_of_ascii ch) = Z_of_ascii ch).
    { destruct (Z.eqb_spec (Z_of_ascii ch) (Z_of_ascii LF)) as [E|E];
        [rewrite E|]; reflexivity. }
    rewrite Hst. repeat split.
    + intros ->. reflexivity.
    + intros j Hj. now apply upd_other.
Qed.

Lemma read_input_eof_and_newline_witness :
  (exists st', step (prog ",") zero_loops (fresh []) = Some st' /\
               tape st' (cell st') = 0) /\
  (exists st', step (prog ",") zero_loops (fresh [LF]) = Some st' /\
               tape st' (cell st') = 10).
Proof.
  split.
  - destruct (read_input_eof_and_newline (prog ",") zero_loops (fresh [])
                eq_refl) as [Heof _].
    destruct (Heof eq_refl) as (st' & Hs & Ht & Hcell & _).
    exists st'. split; [exact Hs | rewrite Ht, Hcell; reflexivity].
  - destruct (read_input_eof_and_newline (prog ",") zero_loops (fresh [LF])
                eq_refl) as [_ Hrd].
    destruct (Hrd LF [] eq_refl eq_refl) as (st' & Hs & _ & _ & _ & Hlf & _).
    exists st'. split; [exact Hs | apply Hlf; reflexivity].
Defined.

(** C10.  A debug dump changes nothing but its own counter (plus one),
    the cursor and the output: tape, cell pointer, high-water mark, input
    and the other counter are left as they were.  The step is defined as
    long as the counter can be incremented and the cells read exist. *)
Theorem debug_dump_frame :
  forall source lp st,
    (src_at source (source_ptr st) = Some "#"%char ->
     in_tape (cell st) = true -> debug_counter st < INT_MAX ->
     exists st', step source lp st = Some st' /\
       tape st' = tape st /\ cell st' = cell st /\
       max_cell_used st' = max_cell_used st /\ stdin st' = stdin st /\
       debug_counter st' = debug_counter st + 1 /\
       memory_counter st' = memory_counter st) /\
    (src_at source (source_ptr st) = Some "@"%char ->
     max_cell_used st < TAPESIZE -> memory_counter st < INT_MAX ->
     exists st', step source lp st = Some st' /\
       tape st' = tape st /\ cell st' = cell st /\
       max_cell_used st' = max_cell_used st /\ stdin st' = stdin st /\
       memory_counter st' = memory_counter st + 1 /\
       debug_counter st' = debug_counter st).
Proof.
  intros source lp st. split; intros Hc H1 H2; unfold step; rewrite Hc;
    unfold exec_instr; cbn [Ascii.eqb Bool.eqb].
  - rewrite H1. apply Z.ltb_lt in H2. rewrite H2. cbn [andb].
    eexists. split; [reflexivity|]. cbn. repeat split.
  - apply Z.ltb_lt in H1, H2. rewrite H1, H2. cbn [andb].
    eexists. split; [reflexivity|]. cbn. repeat split.
Qed.

Lemma debug_dump_frame_witness :
  (exists st', step (prog "#") zero_loops (fresh []) = Some st' /\
               debug_counter st' = 2 /\ memory_counter st' = 1) /\
  (exists st', step (prog "@") zero_loops (fresh []) = Some st' /\
               memory_counter st' = 2 /\ debug_counter st' = 1).
Proof.
  split.
  - destruct (debug_dump_frame (prog "#") zero_loops (fresh [])) as [Hd _].
    destruct (Hd eq_refl eq_refl eq_refl)
      as (st' & Hs & _ & _ & _ & _ & Hdc & Hmc).
    exists st'. split; [exact Hs | split; [rewrite Hdc | rewrite Hmc]];
      reflexivity.
  - destruct (debug_dump_frame (prog "@") zero_loops (fresh [])) as [_ Hm].
    destruct (Hm eq_refl eq_refl eq_refl)
      as (st' & Hs & _ & _ & _ & _ & Hmc & Hdc).
    exists st'. split; [exact Hs | split; [rewrite Hmc | rewrite Hdc]];
      reflexivity.
Defined.

(* ================================================================== *)
(** ** Whole runs on concrete programs *)

(** C7.  The program [+[-]] halts on a fresh tape, whatever the input
    and the previous content of [loops], with the current cell at 0, and
    it gets there in the four iterations the claim describes: the
    increment takes the cell to 1, the open bracket falls through on that
    1, the decrement takes the cell to 0 and no further, and the close
    bracket, though linked to the open at 1, falls through on that 0 and
    leaves the cursor at the end of the program. *)
Theorem clear_loop_halts_at_zero :
  forall loops0 input,
    let source := prog "+[-]" in
    let jump := loops (InitLoops source loops0) in
    exists s1 s2 s3 s4 st',
      step source jump (fresh input) = Some s1 /\
      tape s1 (cell s1) = 1 /\ source_ptr s1 = 1 /\
      step source jump s1 = Some s2 /\
      tape s2 (cell s2) = 1 /\ source_ptr s2 = 2 /\
      step source jump s2 = Some s3 /\
      tape s3 (cell s3) = 0 /\ source_ptr s3 = 3 /\
      step source jump s3 = Some s4 /\
      tape s4 (cell s4) = 0 /\ source_ptr s4 = 4 /\
      jump 3 = 1 /\ jump 1 = 3 /\
      ExecuteSource 3 source loops0 (fresh input) = None /\
      ExecuteSource 4 source loops0 (fresh input) = Some st' /\
      st' = put s4 (bytes_of_string nl) /\
      tape st' (cell st') = 0 /\ cell st' = 0 /\
      source_ptr st' = source_length source /\
      stdout st' = [10].
Proof.
  intros loops0 input source jump.
  eexists. eexists. eexists. eexists. eexists.
  split; [vm_compute; reflexivity|].
  split; [vm_compute; reflexivity|]. split; [vm_compute; reflexivity|].
  split; [vm_compute; reflexivity|].
  split; [vm_compute; reflexivity|]. split; [vm_compute; reflexivity|].
  split; [vm_compute; reflexivity|].
  split; [vm_compute; reflexivity|]. split; [vm_compute; reflexivity|].
  split; [vm_compute; reflexivity|].
  split; [vm_compute; reflexivity|]. split; [vm_compute; reflexivity|].
  split; [vm_compute; reflexivity|]. split; [vm_compute; reflexivity|].
  split; [vm_compute; reflexivity|].
  split; [vm_compute; reflexivity|].
  split; [vm_compute; reflexivity|].
  vm_compute. repeat split.
Qed.

(** C8.  The program [+++.] on a fresh tape writes the byte 3 and then
    only the newline that ends every run. *)
Theorem three_plus_dot_output :
  forall loops0 input,
    exists fuel st',
      ExecuteSource fuel (prog "+++.") loops0 (fresh input) = Some st' /\
      stdout st' = [3; 10].
Proof.
  intros loops0 input. exists 4%nat. eexists.
  split; [vm_compute; reflexivity|]. vm_compute. reflexivity.
Qed.

(* ================================================================== *)
(** ** Diagnostics of the jump resolver *)

(** The scan itself only ever reports closes without an open. *)
Lemma scan_char_no_missing_close c ptr r :
  filter is_missing_close (errors (scan_char c ptr r))
  = filter is_missing_close (errors r).
Proof.
  unfold scan_char.
  destruct (Ascii.eqb c "["), (Ascii.eqb c "]"); cbn; try reflexivity.
  destruct (stack r); cbn; [|reflexivity].
  rewrite filter_app. cbn. now rewrite app_nil_r.
Qed.

Lemma scan_no_missing_close chars : forall ptr r,
  filter is_missing_close (errors (scan chars ptr r))
  = filter is_missing_close (errors r).
Proof.
  induction chars as [|c rest IH]; intros ptr r; cbn; [reflexivity|].
  rewrite IH. apply scan_char_no_missing_close.
Qed.

(** C9.  For the program [[] alone the resolver returns, and its only
    report is a missing close at position 0. *)
Theorem lone_open_reports_missing_close :
  forall loops0,
    errors (InitLoops (prog "[") loops0) = [MissingClose 0].
Proof. intros loops0. reflexivity. Qed.

(** C5 as stated fails: on [[[] two opens are pending at the end of the
    scan, at 1 and 0, and only the one at 1 is reported. *)
Lemma reports_every_pending_open_counterexample :
  ~ (forall source loops0,
        stack (scan source 0 (mkResolver [] loops0 [])) <> [] ->
        filter is_missing_close (errors (InitLoops source loops0))
        = map MissingClose (stack (scan source 0 (mkResolver [] loops0 [])))).
Proof.
  intros H.
  specialize (H (prog "[[") zero_loops ltac:(cbn; discriminate)).
  cbn in H. discriminate H.
Qed.

(** The stack of the scan holds positions already scanned, the later
    pushed above the earlier: it is descending from the top. *)
Lemma scan_char_descending c ptr r :
  descending (stack r) /\ Forall (fun p => p < ptr) (stack r) ->
  descending (stack (scan_char c ptr r)) /\
  Forall (fun p => p < ptr + 1) (stack (scan_char c ptr r)).
Proof.
  intros [Hd Hb].
  assert (Hb' : Forall (fun p => p < ptr + 1) (stack r))
    by (eapply Forall_impl; [|exact Hb]; cbn; intros; lia).
  unfold scan_char.
  destruct (Ascii.eqb c "["), (Ascii.eqb c "]"); cbn [stack].
  - split; assumption.
  - split; [split; assumption|]. constructor; [lia | exact Hb'].
  - destruct (stack r) as [|top below]; cbn [stack].
    + split; [exact I | constructor].
    + split; [exact (proj2 Hd) | now inversion Hb'].
  - split; assumption.
Qed.

Lemma scan_descending chars : forall ptr r,
  descending (stack r) /\ Forall (fun p => p < ptr) (stack r) ->
  descending (stack (scan chars ptr r)) /\
  Forall (fun p => p < ptr + source_length chars) (stack (scan chars ptr r)).
Proof.
  induction chars as [|c rest IH]; intros ptr r H; cbn [scan].
  - unfold source_length. cbn. now rewrite Z.add_0_r.
  - unfold source_length. cbn [List.length].
    replace (ptr + Z.of_nat (S (List.length rest)))
      with (ptr + 1 + source_length rest) by (unfold source_length; lia).
    apply IH. now apply scan_char_descending.
Qed.

(** C5, amended.  When opens are pending at the end of the scan, the
    resolver reports exactly one of them as lacking its close: the
    innermost, pushed last, which is the one further to the right than
    every other pending open.  The report comes after those of the
    scan. *)
Theorem reports_innermost_pending_open :
  forall source loops0 top below,
    stack (scan source 0 (mkResolver [] loops0 [])) = top :: below ->
    errors (InitLoops source loops0)
    = errors (scan source 0 (mkResolver [] loops0 [])) ++ [MissingClose top]
    /\ filter is_missing_close (errors (InitLoops source loops0))
       = [MissingClose top]
    /\ Forall (fun p => p < top) below
    /\ descending (top :: below).
Proof.
  intros source loops0 top below Hst.
  destruct (scan_descending source 0 (mkResolver [] loops0 [])
              (conj I (Forall_nil _))) as [Hd _].
  rewrite Hst in Hd.
  unfold InitLoops. cbv zeta.
  rewrite Hst. cbn [errors]. split; [reflexivity|].
  split; [rewrite filter_app, scan_no_missing_close; reflexivity|].
  split; [exact (proj1 Hd) | exact Hd].
Qed.

Lemma reports_innermost_pending_open_witness :
  errors (InitLoops (prog "[+[[]") zero_loops) = [MissingClose 2] /\
  Forall (fun p => p < 2) [0].
Proof.
  destruct (reports_innermost_pending_open (prog "[+[[]") zero_loops 2 [0]
              eq_refl) as (H & _ & Hinner & _).
  split; [rewrite H; reflexivity | exact Hinner].
Defined.

(* ================================================================== *)
(** ** Balanced programs and the jump map *)

Lemma src_at_cons c l i :
  src_at (c :: l) i = if i =? 0 then Some c else src_at l (i - 1).
Proof.
  unfold src_at.
  destruct (Z.ltb_spec i 0) as [Hneg|Hpos].
  - destruct (Z.eqb_spec i 0); [lia|].
    destruct (Z.ltb_spec (i - 1) 0); [reflexivity|lia].
  - destruct (Z.eqb_spec i 0) as [->|Hne]; [reflexivity|].
    destruct (Z.ltb_spec (i - 1) 0); [lia|].
    replace (Z.to_nat i) with (S (Z.to_nat (i - 1))) by lia. reflexivity.
Qed.

Lemma src_at_app a b i :
  src_at (a ++ b) i =
  if i <? source_length a then src_at a i else src_at b (i - source_length a).
Proof.
  unfold src_at, source_length.
  destruct (Z.ltb_spec i 0) as [Hneg|Hpos].
  - destruct (Z.ltb_spec i (Z.of_nat (List.length a))); [reflexivity|lia].
  - destruct (Z.ltb_spec i (Z.of_nat (List.length a))) as [Hlt|Hge].
    + apply nth_error_app1. lia.
    + destruct (Z.ltb_spec (i - Z.of_nat (List.length a)) 0); [lia|].
      rewrite nth_error_app2 by lia. f_equal. lia.
Qed.

Lemma src_at_Some source i c :
  src_at source i = Some c -> 0 <= i < source_length source.
Proof.
  unfold src_at, source_length. destruct (Z.ltb_spec i 0); [discriminate|].
  intros Hs. assert (Hn : nth_error source (Z.to_nat i) <> None) by congruence.
  apply nth_error_Some in Hn. lia.
Qed.

Lemma source_length_cons c l : source_length (c :: l) = source_length l + 1.
Proof. unfold source_length. cbn [List.length]. lia. Qed.

Lemma source_length_app a b :
  source_length (a ++ b) = source_length a + source_length b.
Proof. unfold source_length. rewrite length_app. lia. Qed.

Lemma source_length_nonneg l : 0 <= source_length l.
Proof. unfold source_length. lia. Qed.

Lemma sits_cons source ptr c l :
  sits source ptr (c :: l) ->
  src_at source ptr = Some c /\ sits source (ptr + 1) l.
Proof.
  intros H. split.
  - specialize (H 0 c). rewrite Z.add_0_r in H. apply H.
    now rewrite src_at_cons.
  - intros k d Hk. pose proof (src_at_Some _ _ _ Hk) as Hr.
    replace (ptr + 1 + k) with (ptr + (k + 1)) by lia.
    apply H. rewrite src_at_cons.
    destruct (Z.eqb_spec (k + 1) 0); [lia|].
    now replace (k + 1 - 1) with k by lia.
Qed.

Lemma sits_app source ptr a b :
  sits source ptr (a ++ b) ->
  sits source ptr a /\ sits source (ptr + source_length a) b.
Proof.
  intros H. split; intros k d Hk; pose proof (src_at_Some _ _ _ Hk) as Hr.
  - apply H. rewrite src_at_app.
    destruct (Z.ltb_spec k (source_length a)); [exact Hk|lia].
  - replace (ptr + source_length a + k) with (ptr + (source_length a + k))
      by lia.
    apply H. rewrite src_at_app.
    pose proof (source_length_nonneg a).
    destruct (Z.ltb_spec (source_length a + k) (source_length a)); [lia|].
    now replace (source_length a + k - source_length a) with k by lia.
Qed.

Lemma sits_self source : sits source 0 source.
Proof. intros k c H. exact H. Qed.

Lemma scan_app a b : forall ptr r,
  scan (a ++ b) ptr r = scan b (ptr + source_length a) (scan a ptr r).
Proof.
  induction a as [|c a IH]; intros ptr r; cbn [scan app].
  - unfold source_length. cbn. now rewrite Z.add_0_r.
  - rewrite IH, source_length_cons. f_equal. lia.
Qed.

Lemma linked_le source lp lo hi p : linked source lp lo hi p -> lo <= hi.
Proof. induction 1; lia. Qed.

(** Only the entries of the piece itself matter. *)
Lemma linked_frame source lp lp' lo hi p :
  linked source lp lo hi p ->
  (forall i, lo <= i < hi -> lp' i = lp i) ->
  linked source lp' lo hi p.
Proof.
  induction 1 as [lo | lo hi c p Hc Ht Hl IH | lo hi c s p Hc Ha Hl IH
                 | lo mid hi pb pr Ho Hcl Hlo Hmid Hb IHb Hr IHr];
    intros Hsame.
  - constructor.
  - pose proof (linked_le _ _ _ _ _ Hl).
    eapply linked_comment; eauto. apply IH. intros; apply Hsame; lia.
  - pose proof (linked_le _ _ _ _ _ Hl).
    eapply linked_atom; eauto. apply IH. intros; apply Hsame; lia.
  - pose proof (linked_le _ _ _ _ _ Hb). pose proof (linked_le _ _ _ _ _ Hr).
    apply linked_loop with (mid := mid); auto.
    + rewrite Hsame by lia. exact Hlo.
    + rewrite Hsame by lia. exact Hmid.
    + apply IHb. intros; apply Hsame; lia.
    + apply IHr. intros; apply Hsame; lia.
Qed.

Lemma atom_not_bracket c s :
  atom_of_char c = Some s -> c <> "["%char /\ c <> "]"%char.
Proof. intros H. split; intros ->; discriminate H. Qed.

Lemma comment_not_bracket c :
  token_of_char c = None -> c <> "["%char /\ c <> "]"%char.
Proof. intros H. split; intros ->; discriminate H. Qed.

Lemma scan_char_plain c ptr r :
  c <> "["%char -> c <> "]"%char -> scan_char c ptr r = r.
Proof.
  intros H1 H2. apply Ascii.eqb_neq in H1, H2.
  unfold scan_char. now rewrite H1, H2.
Qed.

(** Scanning a balanced piece leaves the stack and the reports as they
    were, touches [loops] inside the piece only, and links its loops. *)
Lemma scan_nested source l p :
  nested l p ->
  forall ptr r, sits source ptr l ->
    stack (scan l ptr r) = stack r /\
    errors (scan l ptr r) = errors r /\
    (forall i, i < ptr \/ ptr + source_length l <= i ->
               loops (scan l ptr r) i = loops r i) /\
    linked source (loops (scan l ptr r)) ptr (ptr + source_length l) p.
Proof.
  induction 1 as [| c l p Ht Hn IH | c s l p Ha Hn IH
                 | body rest pb pr Hb IHb Hr IHr];
    intros ptr r Hsits.
  - cbn [scan]. unfold source_length. cbn. rewrite Z.add_0_r.
    repeat split; auto. constructor.
  - apply sits_cons in Hsits as [Hc Hs].
    destruct (comment_not_bracket _ Ht) as [H1 H2].
    cbn [scan]. rewrite scan_char_plain by assumption.
    destruct (IH (ptr + 1) r Hs) as (Hst & He & Hf & Hl).
    rewrite source_length_cons.
    replace (ptr + (source_length l + 1)) with (ptr + 1 + source_length l)
      by lia.
    repeat split; auto.
    + intros i Hi. apply Hf. lia.
    + eapply linked_comment; eauto.
  - apply sits_cons in Hsits as [Hc Hs].
    destruct (atom_not_bracket _ _ Ha) as [H1 H2].
    cbn [scan]. rewrite scan_char_plain by assumption.
    destruct (IH (ptr + 1) r Hs) as (Hst & He & Hf & Hl).
    rewrite source_length_cons.
    replace (ptr + (source_length l + 1)) with (ptr + 1 + source_length l)
      by lia.
    repeat split; auto.
    + intros i Hi. apply Hf. lia.
    + eapply linked_atom; eauto.
  - apply sits_cons in Hsits as [Ho Hs].
    apply sits_app in Hs as [Hsb Hs].
    apply sits_cons in Hs as [Hcl Hsr].
    cbn [scan]. rewrite scan_app. cbn [scan].
    set (r1 := scan_char "[" ptr r).
    assert (Hr1 : r1 = mkResolver (ptr :: stack r) (loops r) (errors r))
      by reflexivity.
    destruct (IHb (ptr + 1) r1 Hsb) as (Hst2 & He2 & Hf2 & Hl2).
    set (r2 := scan body (ptr + 1) r1) in *.
    set (mid := ptr + 1 + source_length body) in *.
    set (r3 := scan_char "]" mid r2).
    assert (Hr3 : r3 = mkResolver (stack r)
                         (upd (upd (loops r2) mid ptr) ptr mid) (errors r)).
    { unfold r3, scan_char. cbn [Ascii.eqb Bool.eqb].
      rewrite Hst2, He2, Hr1. reflexivity. }
    destruct (IHr (mid + 1) r3 Hsr) as (Hst4 & He4 & Hf4 & Hl4).
    set (r4 := scan rest (mid + 1) r3) in *.
    pose proof (source_length_nonneg body) as Hnb.
    pose proof (source_length_nonneg rest) as Hnr.
    assert (Hlen : ptr + source_length ("["%char :: body ++ "]"%char :: rest)
                   = mid + 1 + source_length rest).
    { rewrite source_length_cons, source_length_app, source_length_cons.
      unfold mid. lia. }
    rewrite Hlen.
    assert (Hin : forall i, i < mid + 1 -> loops r4 i = loops r3 i)
      by (intros; apply Hf4; lia).
    repeat split.
    + rewrite Hst4, Hr3. reflexivity.
    + rewrite He4, Hr3. reflexivity.
    + intros i Hi. rewrite Hf4 by lia. rewrite Hr3. cbn [loops].
      rewrite !upd_other by (unfold mid; lia).
      rewrite Hf2 by (fold mid; lia). rewrite Hr1. reflexivity.
    + apply linked_loop with (mid := mid); auto.
      * rewrite Hin by (unfold mid; lia). rewrite Hr3. cbn [loops].
        apply upd_same.
      * rewrite Hin by lia. rewrite Hr3. cbn [loops].
        rewrite upd_other by (unfold mid; lia). apply upd_same.
      * apply linked_frame with (lp := loops r2); [exact Hl2|].
        intros i Hi. rewrite Hin by lia. rewrite Hr3. cbn [loops].
        rewrite !upd_other by lia. reflexivity.
Qed.

(** A balanced prefix does not change the depth seen by what follows. *)
Lemma bal_app a : forall k, bal k a = true ->
  forall d b, bal (k + d) (a ++ b) = bal d b.
Proof.
  induction a as [|c a IH]; intros k Hk d b; cbn [bal app] in *.
  - apply Nat.eqb_eq in Hk. now subst k.
  - destruct (Ascii.eqb c "[").
    + apply (IH (S k) Hk).
    + destruct (Ascii.eqb c "]").
      * destruct k as [|k]; [discriminate|]. apply (IH k Hk).
      * apply (IH k Hk).
Qed.

(** At depth [S d] the text splits at the close that returns to depth
    [d]. *)
Lemma bal_split n : forall l d,
  (List.length l <= n)%nat -> bal (S d) l = true ->
  exists body rest,
    l = body ++ "]"%char :: rest /\ bal 0 body = true /\ bal d rest = true.
Proof.
  induction n as [|n IH]; intros l d Hlen Hb.
  - destruct l; [discriminate Hb | cbn in Hlen; lia].
  - destruct l as [|c l]; [discriminate Hb|].
    cbn [List.length] in Hlen. cbn [bal] in Hb.
    destruct (Ascii.eqb_spec c "[") as [->|Hno].
    + destruct (IH l (S d) ltac:(lia) Hb) as (b1 & r1 & -> & Hb1 & Hr1).
      rewrite length_app in Hlen. cbn [List.length] in Hlen.
      destruct (IH r1 d ltac:(lia) Hr1) as (b2 & r2 & -> & Hb2 & Hr2).
      exists ("["%char :: b1 ++ "]"%char :: b2), r2. repeat split.
      * cbn [app]. rewrite <- app_assoc. reflexivity.
      * cbn [bal Ascii.eqb Bool.eqb].
        rewrite (bal_app b1 0 Hb1 1%nat). exact Hb2.
      * exact Hr2.
    + destruct (Ascii.eqb_spec c "]") as [->|Hnc].
      * exists [], l. repeat split. exact Hb.
      * destruct (IH l d ltac:(lia) Hb) as (b1 & r1 & -> & Hb1 & Hr1).
        exists (c :: b1), r1. repeat split; auto.
        cbn [bal]. apply Ascii.eqb_neq in Hno, Hnc. now rewrite Hno, Hnc.
Qed.

Lemma plain_char_cases c :
  c <> "["%char -> c <> "]"%char ->
  (exists s, atom_of_char c = Some s) \/ token_of_char c = None.
Proof.
  intros Ho Hc. apply Ascii.eqb_neq in Ho, Hc.
  unfold atom_of_char, token_of_char. rewrite Ho, Hc.
  repeat match goal with
         | |- context [if ?b then _ else _] => destruct b; eauto
         end.
Qed.

(** A balanced text has a loop structure. *)
Lemma balanced_nested_len n : forall l,
  (List.length l <= n)%nat -> bal 0 l = true -> exists p, nested l p.
Proof.
  induction n as [|n IH]; intros l Hlen Hb.
  - destruct l; [exists []; constructor | cbn in Hlen; lia].
  - destruct l as [|c l]; [exists []; constructor|].
    cbn [List.length] in Hlen. cbn [bal] in Hb.
    destruct (Ascii.eqb_spec c "[") as [->|Hno].
    + destruct (bal_split (List.length l) l 0 (le_n _) Hb)
        as (body & rest & -> & Hbody & Hrest).
      rewrite length_app in Hlen. cbn [List.length] in Hlen.
      destruct (IH body ltac:(lia) Hbody) as [pb Hpb].
      destruct (IH rest ltac:(lia) Hrest) as [pr Hpr].
      exists (SWhile pb :: pr). now constructor.
    + destruct (Ascii.eqb_spec c "]") as [->|Hnc]; [discriminate Hb|].
      destruct (IH l ltac:(lia) Hb) as [p Hp].
      destruct (plain_char_cases c Hno Hnc) as [[s Hs]|Hcm].
      * exists (s :: p). now apply nested_atom with (c := c).
      * exists p. now constructor.
Qed.

Lemma balanced_nested source :
  balanced source -> exists p, nested source p.
Proof. apply (balanced_nested_len (List.length source)), le_n. Qed.

(** In a linked piece every bracket has its partner inside the piece, on
    the right side, and the table sends the partner back. *)
Lemma linked_partner source lp lo hi p :
  linked source lp lo hi p ->
  forall i c, lo <= i < hi -> src_at source i = Some c ->
    (c = "["%char ->
     i < lp i < hi /\ src_at source (lp i) = Some "]"%char /\ lp (lp i) = i) /\
    (c = "]"%char ->
     lo <= lp i < i /\ src_at source (lp i) = Some "["%char /\ lp (lp i) = i).
Proof.
  induction 1 as [lo | lo hi c0 p Hc Ht Hl IH | lo hi c0 s p Hc Ha Hl IH
                 | lo mid hi pb pr Ho Hcl Hlo Hmid Hb IHb Hr IHr];
    intros i c Hi Hic.
  - lia.
  - destruct (Z.eq_dec i lo) as [->|Hne].
    + rewrite Hc in Hic. injection Hic as <-.
      destruct (comment_not_bracket _ Ht). split; intros; contradiction.
    + destruct (IH i c ltac:(lia) Hic) as [IHo IHc].
      split; intros E; [destruct (IHo E) | destruct (IHc E)];
        repeat split; try tauto; lia.
  - destruct (Z.eq_dec i lo) as [->|Hne].
    + rewrite Hc in Hic. injection Hic as <-.
      destruct (atom_not_bracket _ _ Ha). split; intros; contradiction.
    + destruct (IH i c ltac:(lia) Hic) as [IHo IHc].
      split; intros E; [destruct (IHo E) | destruct (IHc E)];
        repeat split; try tauto; lia.
  - pose proof (linked_le _ _ _ _ _ Hb) as Hle1.
    pose proof (linked_le _ _ _ _ _ Hr) as Hle2.
    destruct (Z.eq_dec i lo) as [->|Hnlo].
    { rewrite Ho in Hic. injection Hic as <-. split; [|discriminate].
      intros _. rewrite Hlo, Hmid. repeat split; auto; lia. }
    destruct (Z.eq_dec i mid) as [->|Hnmid].
    { rewrite Hcl in Hic. injection Hic as <-. split; [discriminate|].
      intros _. rewrite Hmid, Hlo. repeat split; auto; lia. }
    destruct (Z_lt_ge_dec i mid) as [Hlt|Hge].
    + destruct (IHb i c ltac:(lia) Hic) as [IHo IHc].
      split; intros E; [destruct (IHo E) | destruct (IHc E)];
        repeat split; try tauto; lia.
    + destruct (IHr i c ltac:(lia) Hic) as [IHo IHc].
      split; intros E; [destruct (IHo E) | destruct (IHc E)];
        repeat split; try tauto; lia.
Qed.

(** On a balanced program the resolver reports nothing, pops everything
    it pushed, and links the whole program. *)
Lemma InitLoops_balanced source loops0 :
  balanced source ->
  exists p, nested source p /\
    errors (InitLoops source loops0) = [] /\
    stack (InitLoops source loops0) = [] /\
    linked source (loops (InitLoops source loops0)) 0 (source_length source) p.
Proof.
  intros Hb. destruct (balanced_nested _ Hb) as [p Hp]. exists p.
  destruct (scan_nested source source p Hp 0 (mkResolver [] loops0 [])
              (sits_self source)) as (Hst & He & _ & Hl).
  cbn [stack errors] in Hst, He. unfold InitLoops. cbv zeta.
  rewrite Hst. repeat split; auto.
Qed.

(** The reports only grow during the scan. *)
Lemma scan_char_errors c ptr r :
  exists more, errors (scan_char c ptr r) = errors r ++ more.
Proof.
  unfold scan_char.
  destruct (Ascii.eqb c "["), (Ascii.eqb c "]"); cbn [stack errors];
    try (exists []; now rewrite app_nil_r).
  destruct (stack r); cbn [errors]; eauto.
  exists []. now rewrite app_nil_r.
Qed.

Lemma InitLoops_errors_from chars : forall ptr r,
  exists more,
    errors (match stack (scan chars ptr r) with
            | [] => scan chars ptr r
            | top :: below =>
                mkResolver below (loops (scan chars ptr r))
                  (errors (scan chars ptr r) ++ [MissingClose top])
            end) = errors r ++ more.
Proof.
  induction chars as [|c rest IH]; intros ptr r; cbn [scan].
  - destruct (stack r); cbn [errors]; eauto.
    exists []. now rewrite app_nil_r.
  - destruct (IH (ptr + 1) (scan_char c ptr r)) as [m1 H1].
    destruct (scan_char_errors c ptr r) as [m2 H2].
    exists (m2 ++ m1). now rewrite H1, H2, app_assoc.
Qed.

(** The resolver has nothing to report exactly when the depth count
    started at the height of its stack succeeds. *)
Lemma no_report_iff_bal chars : forall ptr r,
  errors (match stack (scan chars ptr r) with
          | [] => scan chars ptr r
          | top :: below =>
              mkResolver below (loops (scan chars ptr r))
                (errors (scan chars ptr r) ++ [MissingClose top])
          end) = errors r
  <-> bal (List.length (stack r)) chars = true.
Proof.
  assert (Hgrow : forall (l : list bracket_error) e more,
             l ++ e :: more <> l).
  { intros l e more H. apply (f_equal (@List.length _)) in H.
    rewrite length_app in H. cbn in H. lia. }
  induction chars as [|c rest IH]; intros ptr r; cbn [scan bal].
  - destruct (stack r); cbn [errors List.length Nat.eqb].
    + tauto.
    + split; [intros H; now apply Hgrow in H | discriminate].
  - destruct (Ascii.eqb_spec c "[") as [->|Hno].
    + rewrite (IH (ptr + 1) (scan_char "[" ptr r)). reflexivity.
    + destruct (Ascii.eqb_spec c "]") as [->|Hnc].
      * destruct (stack r) as [|top below] eqn:Hst; cbn [List.length].
        -- split; [|discriminate]. intros H.
           destruct (InitLoops_errors_from rest (ptr + 1)
                       (scan_char "]" ptr r)) as [more Hm].
           rewrite H in Hm. unfold scan_char in Hm.
           cbn [Ascii.eqb Bool.eqb] in Hm. rewrite Hst in Hm.
           cbn [errors] in Hm. rewrite <- app_assoc in Hm. cbn [app] in Hm.
           symmetry in Hm. now apply Hgrow in Hm.
        -- pose proof (IH (ptr + 1) (scan_char "]" ptr r)) as IH'.
           assert (Hs : stack (scan_char "]" ptr r) = below)
             by (unfold scan_char; cbn [Ascii.eqb Bool.eqb];
                 now rewrite Hst).
           assert (He : errors (scan_char "]" ptr r) = errors r)
             by (unfold scan_char; cbn [Ascii.eqb Bool.eqb];
                 now rewrite Hst).
           rewrite Hs, He in IH'. exact IH'.
      * rewrite scan_char_plain by assumption. apply IH.
Qed.

(** X4.  Depth counting and the resolver agree on what is balanced:
    [InitLoops] reports nothing exactly when no close bracket comes at
    depth 0 and the depth is back to 0 at the end. *)
Lemma balanced_iff_no_report source loops0 :
  balanced source <-> errors (InitLoops source loops0) = [].
Proof.
  unfold balanced, InitLoops. cbv zeta.
  symmetry. apply (no_report_iff_bal source 0 (mkResolver [] loops0 [])).
Qed.

(** C2.  On a balanced program the jump map is an involution on the
    bracket positions: the partner of an open at [i] is a close at some
    [j > i], the partner of a close is an open before it, and the map
    sends each partner back. *)
Theorem jump_map_involution :
  forall source loops0,
    balanced source ->
    forall i c,
      src_at source i = Some c -> c = "["%char \/ c = "]"%char ->
      let jump := loops (InitLoops source loops0) in
      jump (jump i) = i /\
      (c = "["%char -> i < jump i /\ src_at source (jump i) = Some "]"%char) /\
      (c = "]"%char -> jump i < i /\ src_at source (jump i) = Some "["%char).
Proof.
  intros source loops0 Hb i c Hic Hc jump.
  destruct (InitLoops_balanced source loops0 Hb) as (p & _ & _ & _ & Hl).
  destruct (linked_partner _ _ _ _ _ Hl i c (src_at_Some _ _ _ Hic) Hic)
    as [Ho Hcl].
  fold jump in Ho, Hcl. split; [|split].
  - destruct Hc as [E|E]; [apply Ho in E | apply Hcl in E]; tauto.
  - intros E. apply Ho in E. split; [lia | tauto].
  - intros E. apply Hcl in E. split; [lia | tauto].
Qed.

Lemma jump_map_involution_witness :
  let jump := loops (InitLoops (prog "+[-[>]<]") zero_loops) in
  jump (jump 1) = 1 /\ jump 1 = 7 /\ jump (jump 5) = 5 /\ jump 5 = 3.
Proof.
  intros jump.
  assert (Hb : balanced (prog "+[-[>]<]")) by reflexivity.
  destruct (jump_map_involution (prog "+[-[>]<]") zero_loops Hb 1 "["%char
              eq_refl (or_introl eq_refl)) as [H1 _].
  destruct (jump_map_involution (prog "+[-[>]<]") zero_loops Hb 5 "]"%char
              eq_refl (or_intror eq_refl)) as [H5 _].
  split; [exact H1 | split; [reflexivity | split; [exact H5 | reflexivity]]].
Defined.

(* ================================================================== *)
(** ** The emitted program against the tape machine *)

(** The text of [bf_to_c] is the header, the lines of [tokens] and the
    footer. *)
Lemma emit_char_token c :
  emit_char c = match token_of_char c with
                | Some t => token_text t
                | None => EmptyString
                end.
Proof.
  unfold emit_char, token_of_char.
  repeat match goal with
         | |- context [if ?b then _ else _] => destruct b; [reflexivity|]
         end.
  reflexivity.
Qed.

Lemma bf_to_c_tokens input :
  bf_to_c input = (c_header ++ token_lines (tokens input) ++ c_footer)%string.
Proof.
  unfold bf_to_c. do 2 f_equal.
  induction input as [|c rest IH]; [reflexivity|].
  cbn [emit_loop tokens]. rewrite emit_char_token, IH.
  destruct (token_of_char c); reflexivity.
Qed.

Lemma atom_cases c s :
  atom_of_char c = Some s ->
  (c = ">"%char /\ s = SIncPtr) \/ (c = "<"%char /\ s = SDecPtr) \/
  (c = "+"%char /\ s = SIncCell) \/ (c = "-"%char /\ s = SDecCell) \/
  (c = "."%char /\ s = SPutChar) \/ (c = ","%char /\ s = SGetChar).
Proof.
  unfold atom_of_char.
  repeat match goal with
         | |- context [Ascii.eqb c ?x] =>
             destruct (Ascii.eqb_spec c x);
             [intros [= <-]; subst c; tauto|]
         end.
  discriminate.
Qed.

Lemma tokens_app a b : tokens (a ++ b) = tokens a ++ tokens b.
Proof.
  induction a as [|c a IH]; [reflexivity|].
  cbn [tokens app]. destruct (token_of_char c); rewrite IH; reflexivity.
Qed.

Lemma parse_block_end fuel ts :
  block_end ts -> parse_block (S fuel) ts = Some ([], ts).
Proof. intros [->|[r ->]]; reflexivity. Qed.

(** The parser recovers the loop structure of a balanced text. *)
Lemma parse_block_nested l p :
  nested l p ->
  forall fuel rest,
    (List.length (tokens l) < fuel)%nat -> block_end rest ->
    parse_block fuel (tokens l ++ rest) = Some (p, rest).
Proof.
  induction 1 as [| c l p Ht Hn IH | c s l p Ha Hn IH
                 | body rest0 pb pr Hb IHb Hr IHr];
    intros fuel rest Hfuel Hend.
  - destruct fuel; [cbn in Hfuel; lia|]. now apply parse_block_end.
  - cbn [tokens] in *. rewrite Ht in *. now apply IH.
  - destruct fuel as [|fuel]; [lia|].
    destruct (atom_cases _ _ Ha)
      as [[-> ->]|[[-> ->]|[[-> ->]|[[-> ->]|[[-> ->]|[-> ->]]]]]];
      cbn [tokens token_of_char Ascii.eqb Bool.eqb app List.length] in *;
      cbn [parse_block]; rewrite (IH fuel rest) by (auto; lia); reflexivity.
  - destruct fuel as [|fuel]; [lia|].
    cbn [tokens token_of_char Ascii.eqb Bool.eqb] in *.
    rewrite tokens_app in *.
    cbn [tokens token_of_char Ascii.eqb Bool.eqb] in *.
    cbn [List.length] in Hfuel. rewrite length_app in Hfuel.
    cbn [List.length] in Hfuel.
    cbn [app]. rewrite <- app_assoc. cbn [app parse_block].
    rewrite (IHb fuel (TClose :: tokens rest0 ++ rest))
      by (try lia; right; eauto).
    rewrite (IHr fuel rest) by (auto; lia). reflexivity.
Qed.

Lemma parse_nested l p : nested l p -> parse (tokens l) = Some p.
Proof.
  intros H. unfold parse.
  pose proof (parse_block_nested l p H (S (List.length (tokens l))) []
                (Nat.lt_succ_diag_r _) (or_introl eq_refl)) as Hp.
  rewrite app_nil_r in Hp. now rewrite Hp.
Qed.

(** A run that passes the side condition is a run of the plain
    semantics. *)
Lemma c_exec_within_plain ok fuel : forall p cs cs',
  c_exec_within ok fuel p cs = Some cs' -> c_exec fuel p cs = Some cs'.
Proof.
  unfold c_exec.
  induction fuel as [|fuel IH]; intros p cs cs' H; [discriminate|].
  cbn [c_exec_within] in *.
  destruct p as [|s rest]; [exact H|].
  assert (Hatom :
    (if ok s cs then
       match exec_atom s cs with
       | Some cs1 => c_exec_within ok fuel rest cs1
       | None => None
       end
     else None) = Some cs' ->
    match exec_atom s cs with
    | Some cs1 => c_exec_within (fun _ _ => true) fuel rest cs1
    | None => None
    end = Some cs').
  { destruct (ok s cs); [|discriminate].
    destruct (exec_atom s cs); [apply IH | discriminate]. }
  destruct s; try (apply Hatom; exact H).
  destruct (in_tape (cptr cs)); [|discriminate].
  destruct (cells cs (cptr cs) =? 0); [now apply IH|].
  destruct (c_exec_within ok fuel body cs) as [cs1|] eqn:Hb; [|discriminate].
  rewrite (IH _ _ _ Hb). now apply IH.
Qed.

Lemma steps_trans source lp st1 st2 st3 :
  steps source lp st1 st2 -> steps source lp st2 st3 ->
  steps source lp st1 st3.
Proof.
  induction 1; intros H23; [exact H23|].
  eapply steps_step; eauto.
Qed.

Lemma step_in_source source lp st st1 :
  step source lp st = Some st1 -> source_ptr st < source_length source.
Proof.
  unfold step. destruct (src_at source (source_ptr st)) eqn:Hc;
    [|discriminate].
  intros _. apply src_at_Some in Hc. lia.
Qed.

(** Iterations that end outside the program are a complete run. *)
Lemma steps_run_loop source lp st st' :
  steps source lp st st' ->
  source_length source <= source_ptr st' ->
  exists fuel, run_loop fuel source lp st = Some st'.
Proof.
  induction 1 as [st | st st1 st2 Hs Hss IH]; intros Hend.
  - exists O. cbn [run_loop].
    destruct (Z.ltb_spec (source_ptr st) (source_length source));
      [lia | reflexivity].
  - destruct (IH Hend) as [fuel Hf]. exists (S fuel). cbn [run_loop].
    pose proof (step_in_source _ _ _ _ Hs) as Hlt.
    apply Z.ltb_lt in Hlt. now rewrite Hlt, Hs.
Qed.

Lemma related_set_source_ptr st cs q :
  related st cs -> related (set_source_ptr st q) cs.
Proof. intros []. constructor; assumption. Qed.

Lemma related_in_tape st cs : related st cs -> in_tape (cell st) = true.
Proof.
  intros [_ _ Hp Hr _ _]. unfold in_tape, SHRT_MAX, TAPESIZE in *.
  rewrite Hp. apply andb_true_iff. split; [apply Z.leb_le | apply Z.ltb_lt];
    lia.
Qed.

Lemma no_debug_at source i c :
  no_debug source -> src_at source i = Some c ->
  c <> "#"%char /\ c <> "@"%char.
Proof.
  unfold no_debug, src_at. intros Hnd H.
  destruct (i <? 0); [discriminate|].
  apply nth_error_In in H. rewrite Forall_forall in Hnd. now apply Hnd.
Qed.

(** A character that is no instruction is skipped by the machine. *)
Lemma step_comment source lp st c :
  src_at source (source_ptr st) = Some c ->
  token_of_char c = None -> c <> "#"%char -> c <> "@"%char ->
  step source lp st = Some (set_source_ptr st (source_ptr st + 1)).
Proof.
  intros Hc Ht Hd Hm. unfold step. rewrite Hc.
  apply Ascii.eqb_neq in Hd, Hm.
  unfold token_of_char in Ht. unfold exec_instr.
  repeat match type of Ht with
         | (if ?b then _ else _) = _ => destruct b; [discriminate|]
         end.
  rewrite Hd, Hm. reflexivity.
Qed.

(** A simple statement that passes [agrees] does to the emitted
    program what the instruction it translates does to the machine. *)
Lemma step_atom source lp st cs cs' c s :
  src_at source (source_ptr st) = Some c ->
  atom_of_char c = Some s ->
  related st cs -> agrees s cs = true -> exec_atom s cs = Some cs' ->
  exists st', step source lp st = Some st' /\
              source_ptr st' = source_ptr st + 1 /\ related st' cs'.
Proof.
  intros Hc Ha HR Hok Hex. unfold step. rewrite Hc.
  pose proof (related_in_tape _ _ HR) as Hin.
  destruct HR as [Hcells Hbytes Hp Hrange Hi Ho].
  pose proof (Hbytes (cptr cs)) as Hb.
  unfold exec_instr.
  destruct (atom_cases _ _ Ha)
    as [[-> ->]|[[-> ->]|[[-> ->]|[[-> ->]|[[-> ->]|[-> ->]]]]]];
    cbn [Ascii.eqb Bool.eqb]; cbn [exec_atom agrees] in Hex, Hok;
    unfold SHRT_MAX in *.
  - (* move right *)
    apply Z.ltb_lt in Hok.
    destruct (cptr cs + 1 <=? TAPESIZE); [|discriminate].
    injection Hex as <-. eexists. split; [reflexivity|]. split; [reflexivity|].
    constructor; cbn; auto; unfold SHRT_MAX;
      [rewrite Hp, short_of_int_id; lia | lia].
  - (* move left *)
    destruct (Z.leb_spec 0 (cptr cs - 1)); [|discriminate].
    injection Hex as <-. eexists. split; [reflexivity|]. split; [reflexivity|].
    constructor; cbn; auto; unfold SHRT_MAX;
      [rewrite Hp, short_of_int_id; lia | lia].
  - (* increment *)
    apply Z.ltb_lt in Hok. rewrite Hin. rewrite <- Hp, Hin in Hex.
    injection Hex as <-. eexists. split; [reflexivity|]. split; [reflexivity|].
    rewrite Hp in *.
    constructor; cbn; auto.
    + intros k. unfold upd. destruct (k =? cptr cs); [|apply Hcells].
      rewrite Hcells, short_of_int_id by lia.
      unfold uchar_of_int. rewrite Z.mod_small; lia.
    + intros k. unfold upd. destruct (k =? cptr cs); [|apply Hbytes].
      unfold uchar_of_int. rewrite Z.mod_small; lia.
  - (* decrement *)
    apply Z.ltb_lt in Hok. rewrite Hin. rewrite <- Hp, Hin in Hex.
    injection Hex as <-. rewrite Hp in *. rewrite Hcells.
    destruct (Z.gtb_spec (cells cs (cptr cs)) 0); [|lia].
    eexists. split; [reflexivity|]. split; [reflexivity|].
    constructor; cbn; auto.
    + intros k. unfold upd. destruct (k =? cptr cs); [|apply Hcells].
      rewrite short_of_int_id by lia.
      unfold uchar_of_int. rewrite Z.mod_small; lia.
    + intros k. unfold upd. destruct (k =? cptr cs); [|apply Hbytes].
      unfold uchar_of_int. rewrite Z.mod_small; lia.
  - (* write *)
    rewrite Hin. rewrite <- Hp, Hin in Hex.
    injection Hex as <-. eexists. split; [reflexivity|]. split; [reflexivity|].
    rewrite Hp in *.
    constructor; cbn; auto. now rewrite Ho, Hcells.
  - (* read *)
    rewrite <- Hp, Hin in Hex. rewrite Hi.
    destruct (cin cs) as [|ch rest]; [discriminate|]. rewrite Hin.
    injection Hex as <-. eexists. split; [reflexivity|]. split; [reflexivity|].
    rewrite Hp in *. pose proof (Z_of_ascii_range ch) as Hch.
    assert (Hst : (if short_of_int (Z_of_ascii ch) =? Z_of_ascii LF then 10
                   else short_of_int (Z_of_ascii ch))
                  = uchar_of_int (Z_of_ascii ch)).
    { rewrite short_of_int_id by lia. unfold uchar_of_int.
      rewrite Z.mod_small by lia.
      destruct (Z.eqb_spec (Z_of_ascii ch) (Z_of_ascii LF)) as [E|E];
        [rewrite E|]; reflexivity. }
    constructor; cbn [tape cells cell cptr stdin cin stdout cout
                      set_source_ptr]; auto.
    + intros k. rewrite Hst. unfold upd.
      destruct (k =? cptr cs); [reflexivity | apply Hcells].
    + intros k. unfold upd. destruct (k =? cptr cs); [|apply Hbytes].
      unfold uchar_of_int. rewrite Z.mod_small; lia.
Qed.

(** At the close of a loop the machine does what it would do at its
    open: leave the loop on a zero cell, enter the body otherwise. *)
Lemma step_close_as_open source lp lo mid st :
  src_at source lo = Some "["%char -> src_at source mid = Some "]"%char ->
  lp lo = mid -> lp mid = lo -> source_ptr st = mid ->
  step source lp st = step source lp (set_source_ptr st lo).
Proof.
  intros Ho Hc Hlo Hmid Hptr. unfold step.
  cbn [source_ptr set_source_ptr]. rewrite Hptr, Ho, Hc.
  unfold exec_instr. cbn [Ascii.eqb Bool.eqb tape cell set_source_ptr].
  destruct (in_tape (cell st)); [|reflexivity].
  destruct (tape st (cell st) =? 0);
    cbn [source_ptr set_source_ptr tape cell max_cell_used debug_counter
         memory_counter stdin stdout];
    rewrite ?Hptr, ?Hlo, ?Hmid; reflexivity.
Qed.

Lemma step_open source lp st lo :
  src_at source lo = Some "["%char -> source_ptr st = lo ->
  in_tape (cell st) = true ->
  step source lp st
  = Some (set_source_ptr st
            ((if tape st (cell st) =? 0 then lp lo else lo) + 1)).
Proof.
  intros Ho Hptr Hin. subst lo. unfold step. rewrite Ho.
  unfold exec_instr. cbn [Ascii.eqb Bool.eqb]. rewrite Hin.
  destruct (tape st (cell st) =? 0); reflexivity.
Qed.

Section Simulation.

Variable source : list ascii.
Variable lp : Z -> Z.
Hypothesis Hnd : no_debug source.

(** A run of the statements of a linked piece that passes [agrees]
    is matched by iterations of the machine across the piece. *)
Lemma linked_simulation fuel :
  forall lo hi p, linked source lp lo hi p ->
  forall cs cs' st,
    c_exec_within agrees fuel p cs = Some cs' ->
    related st cs -> source_ptr st = lo ->
    exists st', steps source lp st st' /\ source_ptr st' = hi /\
                related st' cs'.
Proof.
  induction fuel as [|fuel IHf]; intros lo hi p Hl; [discriminate|].
  induction Hl as [lo | lo hi c p Hc Ht Hl IH | lo hi c s p Hc Ha Hl _
                  | lo mid hi pb pr Ho Hcl Hlo Hmid Hb _ Hr _];
    intros cs cs' st Hex HR Hptr.
  - cbn in Hex. injection Hex as <-. exists st.
    split; [constructor | split; assumption].
  - destruct (no_debug_at _ _ _ Hnd Hc) as [Hd Hm].
    rewrite <- Hptr in Hc.
    pose proof (step_comment source lp st c Hc Ht Hd Hm) as Hs.
    destruct (IH cs cs' (set_source_ptr st (source_ptr st + 1)) Hex
                (related_set_source_ptr _ _ _ HR)
                ltac:(cbn; lia)) as (st' & Hss & Hp' & HR').
    exists st'. split; [|split; assumption]. eapply steps_step; eauto.
  - rewrite <- Hptr in Hc.
    assert (Hex' : exists cs1, agrees s cs = true /\
                     exec_atom s cs = Some cs1 /\
                     c_exec_within agrees fuel p cs1 = Some cs').
    { destruct (atom_cases _ _ Ha)
        as [[_ ->]|[[_ ->]|[[_ ->]|[[_ ->]|[[_ ->]|[_ ->]]]]]];
        cbn [c_exec_within] in Hex;
        match type of Hex with
        | (if ?b then _ else _) = _ => destruct b; [|discriminate]
        end;
        match type of Hex with
        | match ?x with _ => _ end = _ =>
            destruct x as [cs1|]; [|discriminate]
        end; exists cs1; auto. }
    destruct Hex' as (cs1 & Hok & Hat & Hrest).
    destruct (step_atom source lp st cs cs1 c s Hc Ha HR Hok Hat)
      as (st1 & Hs & Hp1 & HR1).
    destruct (IHf _ _ _ Hl cs1 cs' st1 Hrest HR1 ltac:(lia))
      as (st' & Hss & Hp' & HR').
    exists st'. split; [|split; assumption]. eapply steps_step; eauto.
  - pose proof (related_in_tape _ _ HR) as Hin.
    pose proof (step_open source lp st lo Ho Hptr Hin) as Hs.
    cbn [c_exec_within] in Hex.
    rewrite <- (rel_ptr _ _ HR), Hin, <- (rel_cells _ _ HR) in Hex.
    destruct (tape st (cell st) =? 0) eqn:Hz.
    + (* the loop is skipped *)
      rewrite Hlo in Hs.
      destruct (IHf _ _ _ Hr cs cs' _ Hex
                  (related_set_source_ptr _ _ (mid + 1) HR) eq_refl)
        as (st' & Hss & Hp' & HR').
      exists st'. split; [|split; assumption]. eapply steps_step; eauto.
    + (* once through the body, then the loop again *)
      destruct (c_exec_within agrees fuel pb cs) as [cs1|] eqn:Hbody;
        [|discriminate].
      destruct (IHf _ _ _ Hb cs cs1 _ Hbody
                  (related_set_source_ptr _ _ (lo + 1) HR) eq_refl)
        as (st1 & Hss1 & Hp1 & HR1).
      assert (Hloop : linked source lp lo hi (SWhile pb :: pr))
        by (eapply linked_loop; eauto).
      destruct (IHf _ _ _ Hloop cs1 cs' (set_source_ptr st1 lo) Hex
                  (related_set_source_ptr _ _ lo HR1) eq_refl)
        as (st' & Hss' & Hp' & HR').
      exists st'. split; [|split; assumption].
      eapply steps_step; [exact Hs|].
      eapply steps_trans; [exact Hss1|].
      pose proof (linked_le _ _ _ _ _ Hb).
      pose proof (linked_le _ _ _ _ _ Hr).
      inversion Hss' as [st0 E1 E2 | st0 st2 st3 Hs2 Hss2 E1 E2].
      * subst st'. cbn in Hp'. lia.
      * subst st0 st3. eapply steps_step; [|exact Hss2].
        rewrite (step_close_as_open source lp lo mid st1); auto.
Qed.

End Simulation.

(** More fuel does not change the result of the emitted program. *)
Lemma c_exec_within_mono ok fuel : forall fuel' p cs cs',
  (fuel <= fuel')%nat ->
  c_exec_within ok fuel p cs = Some cs' ->
  c_exec_within ok fuel' p cs = Some cs'.
Proof.
  induction fuel as [|fuel IH]; intros fuel' p cs cs' Hle H; [discriminate|].
  destruct fuel' as [|fuel']; [lia|].
  assert (Hle' : (fuel <= fuel')%nat) by lia.
  cbn [c_exec_within] in *.
  destruct p as [|s rest]; [exact H|].
  assert (Hatom :
    (if ok s cs then
       match exec_atom s cs with
       | Some cs1 => c_exec_within ok fuel rest cs1
       | None => None
       end
     else None) = Some cs' ->
    (if ok s cs then
       match exec_atom s cs with
       | Some cs1 => c_exec_within ok fuel' rest cs1
       | None => None
       end
     else None) = Some cs').
  { destruct (ok s cs); [|discriminate].
    destruct (exec_atom s cs); [now apply IH | discriminate]. }
  destruct s; try (apply Hatom; exact H).
  destruct (in_tape (cptr cs)); [|discriminate].
  destruct (cells cs (cptr cs) =? 0); [now apply IH|].
  destruct (c_exec_within ok fuel body cs) as [cs1|] eqn:Hb; [|discriminate].
  rewrite (IH _ _ _ _ Hle' Hb). now apply IH.
Qed.

(** A run of the machine that passes the side condition is a run. *)
Lemma run_loop_within_plain ok source lp fuel : forall st st',
  run_loop_within ok fuel source lp st = Some st' ->
  run_loop fuel source lp st = Some st'.
Proof.
  induction fuel as [|fuel IH]; intros st st' H;
    cbn [run_loop_within run_loop] in *;
    destruct (source_ptr st <? source_length source); auto.
  destruct (src_at source (source_ptr st)) as [c|]; [|discriminate].
  destruct (ok c st); [|discriminate].
  destruct (step source lp st); [now apply IH | discriminate].
Qed.

Lemma benign_comment c st :
  atom_of_char c = None -> benign c st = true.
Proof.
  unfold atom_of_char, benign.
  repeat match goal with
         | |- context [Ascii.eqb c ?x] =>
             destruct (Ascii.eqb c x); [discriminate|]
         end.
  reflexivity.
Qed.

(** The converse of [step_atom]: a benign instruction of the machine is
    matched by the statement it translates to. *)
Lemma step_atom_back source lp st st' cs c s :
  src_at source (source_ptr st) = Some c ->
  atom_of_char c = Some s ->
  related st cs -> benign c st = true -> step source lp st = Some st' ->
  exists cs', agrees s cs = true /\ exec_atom s cs = Some cs' /\
              source_ptr st' = source_ptr st + 1 /\ related st' cs'.
Proof.
  intros Hc Ha HR Hok Hs.
  pose proof (related_in_tape _ _ HR) as Hin.
  assert (Hex : exists cs', agrees s cs = true /\ exec_atom s cs = Some cs').
  { destruct HR as [Hcells Hbytes Hp Hrange Hi Ho].
    rewrite Hp in Hin. unfold SHRT_MAX, TAPESIZE in *.
    destruct (atom_cases _ _ Ha)
      as [[-> ->]|[[-> ->]|[[-> ->]|[[-> ->]|[[-> ->]|[-> ->]]]]]];
      unfold benign in Hok; cbn [Ascii.eqb Bool.eqb] in Hok;
      cbn [agrees exec_atom]; rewrite ?Hin;
      rewrite <- ?Hp, <- ?Hcells, <- ?Hi; unfold SHRT_MAX.
    - destruct (Z.leb_spec (cell st + 1) TAPESIZE) as [_|Hbad];
        [|unfold TAPESIZE in Hbad; lia].
      eexists. split; [exact Hok | reflexivity].
    - apply Z.ltb_lt in Hok.
      destruct (Z.leb_spec 0 (cell st - 1)); [|lia].
      eexists. split; reflexivity.
    - eexists. split; [exact Hok | reflexivity].
    - eexists. split; [exact Hok | reflexivity].
    - eexists. split; reflexivity.
    - destruct (stdin st); [discriminate|].
      eexists. split; reflexivity. }
  destruct Hex as (cs' & Hag & Hat). exists cs'.
  destruct (step_atom source lp st cs cs' c s Hc Ha HR Hag Hat)
    as (st1 & Hs1 & Hp1 & HR1).
  rewrite Hs in Hs1. injection Hs1 as <-. auto.
Qed.

Lemma run_loop_within_close_as_open ok source lp lo mid st fuel :
  src_at source lo = Some "["%char -> src_at source mid = Some "]"%char ->
  lp lo = mid -> lp mid = lo -> source_ptr st = mid ->
  ok "]"%char st = true ->
  forall st', run_loop_within ok fuel source lp st = Some st' ->
  ok "["%char (set_source_ptr st lo) = true ->
  run_loop_within ok fuel source lp (set_source_ptr st lo) = Some st'.
Proof.
  intros Ho Hc Hlo Hmid Hptr Hokc st' H Hoko.
  pose proof (src_at_Some _ _ _ Ho) as Hr1.
  pose proof (src_at_Some _ _ _ Hc) as Hr2.
  destruct fuel as [|fuel]; cbn [run_loop_within] in *;
    cbn [source_ptr set_source_ptr]; rewrite Hptr in H.
  - destruct (Z.ltb_spec mid (source_length source)); [discriminate|lia].
  - destruct (Z.ltb_spec mid (source_length source)); [|lia].
    destruct (Z.ltb_spec lo (source_length source)); [|lia].
    rewrite Hc, Hokc in H. rewrite Ho, Hoko.
    rewrite <- (step_close_as_open source lp lo mid st); auto.
Qed.

Section SimulationBack.

Variable source : list ascii.
Variable lp : Z -> Z.
Hypothesis Hnd : no_debug source.

(** A benign run of the machine that starts at the beginning of a linked
    piece reaches its end, and the statements of the piece take the
    emitted program to the related state. *)
Lemma linked_simulation_back n :
  forall lo hi p, linked source lp lo hi p ->
  forall fuel st cs st_end,
    (fuel <= n)%nat ->
    related st cs -> source_ptr st = lo ->
    run_loop_within benign fuel source lp st = Some st_end ->
    exists fuel1 st1 cs1 fuelc,
      (fuel1 <= fuel)%nat /\
      run_loop_within benign fuel1 source lp st1 = Some st_end /\
      source_ptr st1 = hi /\ related st1 cs1 /\
      c_exec_within agrees fuelc p cs = Some cs1.
Proof.
  induction n as [n IHn] using lt_wf_ind.
  intros lo hi p Hl fuel st cs st_end Hle HR Hptr Hrun.
  destruct Hl as [lo | lo hi c p Hc Ht Hl | lo hi c s p Hc Ha Hl
                 | lo mid hi pb pr Ho Hcl Hlo Hmid Hb Hr].
  - exists fuel, st, cs, 1%nat.
    split; [lia|]. split; [exact Hrun|]. split; [exact Hptr|].
    split; [exact HR | reflexivity].
  - (* a comment *)
    pose proof (src_at_Some _ _ _ Hc) as Hin.
    destruct (no_debug_at _ _ _ Hnd Hc) as [Hd Hm].
    rewrite <- Hptr in Hc, Hin.
    destruct fuel as [|f]; cbn [run_loop_within] in Hrun;
      destruct (Z.ltb_spec (source_ptr st) (source_length source));
      try lia; [discriminate|].
    rewrite Hc in Hrun.
    destruct (benign c st); [|discriminate].
    rewrite (step_comment source lp st c Hc Ht Hd Hm) in Hrun.
    destruct (IHn f ltac:(lia) _ _ _ Hl f
                (set_source_ptr st (source_ptr st + 1)) cs st_end (le_n _)
                (related_set_source_ptr _ _ _ HR) ltac:(cbn; lia) Hrun)
      as (fuel1 & st1 & cs1 & fuelc & Hf1 & Hrun1 & Hp1 & HR1 & Hex).
    exists fuel1, st1, cs1, fuelc.
    split; [lia|]. split; [exact Hrun1|]. split; [exact Hp1|].
    split; [exact HR1 | exact Hex].
  - (* a simple instruction *)
    pose proof (src_at_Some _ _ _ Hc) as Hin.
    rewrite <- Hptr in Hc, Hin.
    destruct fuel as [|f]; cbn [run_loop_within] in Hrun;
      destruct (Z.ltb_spec (source_ptr st) (source_length source));
      try lia; [discriminate|].
    rewrite Hc in Hrun.
    destruct (benign c st) eqn:Hok; [|discriminate].
    destruct (step source lp st) as [st2|] eqn:Hs; [|discriminate].
    destruct (step_atom_back source lp st st2 cs c s Hc Ha HR Hok Hs)
      as (cs2 & Hag & Hat & Hp2 & HR2).
    destruct (IHn f ltac:(lia) _ _ _ Hl f st2 cs2 st_end (le_n _) HR2
                ltac:(lia) Hrun)
      as (fuel1 & st1 & cs1 & fuelc & Hf1 & Hrun1 & Hp1 & HR1 & Hex).
    exists fuel1, st1, cs1, (S fuelc).
    split; [lia|]. split; [exact Hrun1|]. split; [exact Hp1|].
    split; [exact HR1|].
    cbn [c_exec_within].
    destruct (atom_cases _ _ Ha)
      as [[_ ->]|[[_ ->]|[[_ ->]|[[_ ->]|[[_ ->]|[_ ->]]]]]];
      rewrite Hag, Hat; exact Hex.
  - (* a loop *)
    pose proof (src_at_Some _ _ _ Ho) as Hin.
    pose proof (related_in_tape _ _ HR) as Htape.
    pose proof (step_open source lp st lo Ho Hptr Htape) as Hs.
    rewrite <- Hptr in Hin.
    destruct fuel as [|f]; cbn [run_loop_within] in Hrun;
      destruct (Z.ltb_spec (source_ptr st) (source_length source));
      try lia; [discriminate|].
    rewrite Hptr, Ho in Hrun. cbn [benign Ascii.eqb Bool.eqb] in Hrun.
    rewrite Hs in Hrun.
    destruct (tape st (cell st) =? 0) eqn:Hz.
    + (* skipped *)
      rewrite Hlo in Hrun.
      destruct (IHn f ltac:(lia) _ _ _ Hr f _ cs st_end (le_n _)
                  (related_set_source_ptr _ _ _ HR) eq_refl Hrun)
        as (fuel1 & st1 & cs1 & fuelc & Hf1 & Hrun1 & Hp1 & HR1 & Hex).
      exists fuel1, st1, cs1, (S fuelc).
      split; [lia|]. split; [exact Hrun1|]. split; [exact Hp1|].
      split; [exact HR1|].
      cbn [c_exec_within].
      rewrite <- (rel_ptr _ _ HR), Htape, <- (rel_cells _ _ HR), Hz.
      exact Hex.
    + (* entered *)
      destruct (IHn f ltac:(lia) _ _ _ Hb f _ cs st_end (le_n _)
                  (related_set_source_ptr _ _ _ HR) eq_refl Hrun)
        as (fuel1 & st1 & cs1 & fc1 & Hf1 & Hrun1 & Hp1 & HR1 & Hex1).
      assert (Hloop : linked source lp lo hi (SWhile pb :: pr))
        by (eapply linked_loop; eauto).
      pose proof (run_loop_within_close_as_open benign source lp lo mid st1
                    fuel1 Ho Hcl Hlo Hmid Hp1 eq_refl st_end Hrun1 eq_refl)
        as Hrun1'.
      destruct (IHn fuel1 ltac:(lia) _ _ _ Hloop fuel1 _ cs1 st_end (le_n _)
                  (related_set_source_ptr _ _ _ HR1) eq_refl Hrun1')
        as (fuel2 & st2 & cs2 & fc2 & Hf2 & Hrun2 & Hp2 & HR2 & Hex2).
      exists fuel2, st2, cs2, (S (Nat.max fc1 fc2)).
      split; [lia|]. split; [exact Hrun2|]. split; [exact Hp2|].
      split; [exact HR2|].
      cbn [c_exec_within].
      rewrite <- (rel_ptr _ _ HR), Htape, <- (rel_cells _ _ HR), Hz.
      rewrite (c_exec_within_mono agrees fc1 (Nat.max fc1 fc2) pb cs cs1
                 (Nat.le_max_l _ _) Hex1).
      apply (c_exec_within_mono agrees fc2); [apply Nat.le_max_r | exact Hex2].
Qed.

End SimulationBack.

Lemma related_fresh input : related (fresh input) (c_fresh input).
Proof. constructor; cbn; unfold SHRT_MAX; intros; auto; lia. Qed.

(** C1 as stated fails: on [-.] the machine keeps the zero cell and
    writes the byte 0 (then its final newline), the emitted program wraps
    the byte to 255 and writes that. *)
Lemma emitted_same_output_counterexample :
  ~ (forall source input fuel fuel' st' cs',
        balanced source ->
        ExecuteSource fuel source zero_loops (fresh input) = Some st' ->
        run_emitted fuel' source input = Some cs' ->
        stdout st' = cout cs' ++ bytes_of_string nl).
Proof.
  intros H.
  specialize (H (prog "-.") [] 2%nat 3%nat _ _ eq_refl eq_refl eq_refl).
  cbn in H. discriminate H.
Qed.

(** The other differences between the two: a read at end of input
    (the machine keeps the cell, the emitted program stores the byte of
    [EOF]), the width of a cell (after 256 increments the machine holds
    256 and enters the loop, the emitted byte is back to 0), and the debug
    instructions, which [bf_to_c] drops. *)
Example emitted_differs_at_eof :
  option_map stdout (ExecuteSource 2 (prog ",.") zero_loops (fresh []))
  = Some [0; 10] /\
  option_map cout (run_emitted 3 (prog ",.") []) = Some [255].
Proof. split; vm_compute; reflexivity. Qed.

Example emitted_differs_on_cell_width :
  let source := repeat "+"%char 256 ++ prog "[.[-]]" in
  option_map stdout (ExecuteSource 2000 source zero_loops (fresh []))
  = Some [0; 10] /\
  option_map cout (run_emitted 2000 source []) = Some [].
Proof. split; vm_compute; reflexivity. Qed.

Example emitted_differs_on_debug :
  option_map (fun st => List.length (stdout st))
    (ExecuteSource 1 (prog "#") zero_loops (fresh []))
  = Some 41%nat /\
  option_map cout (run_emitted 1 (prog "#") []) = Some [].
Proof. split; vm_compute; reflexivity. Qed.

(** C1, amended.  For a balanced program without debug instructions
    the emitted text is a well-formed C program [p], and
    - whenever the run of [p] ends without moving the pointer beyond
      32767, incrementing a byte that holds 255, decrementing a byte that
      holds 0 or reading at end of input, the tape machine halts on the
      same program and input and writes the same bytes, followed by its
      final newline;
    - whenever the loop of the tape machine ends without moving the cell
      pointer outside 0 .. 32767, incrementing a cell that holds 255,
      decrementing a cell that holds 0 or reading at end of input, the
      run of [p] ends, having written what the machine has written before
      its final newline. *)
Theorem emitted_agrees_with_machine :
  forall source loops0 input,
    balanced source -> no_debug source ->
    exists p,
      bf_to_c source
      = (c_header ++ token_lines (tokens source) ++ c_footer)%string /\
      parse (tokens source) = Some p /\
      (forall fuel cs',
          c_exec_within agrees fuel p (c_fresh input) = Some cs' ->
          run_emitted fuel source input = Some cs' /\
          exists fuel' st',
            ExecuteSource fuel' source loops0 (fresh input) = Some st' /\
            stdout st' = cout cs' ++ bytes_of_string nl) /\
      (forall fuel st',
          run_loop_within benign fuel source
            (loops (InitLoops source loops0)) (fresh input) = Some st' ->
          ExecuteSource fuel source loops0 (fresh input)
          = Some (put st' (bytes_of_string nl)) /\
          exists fuel' cs',
            run_emitted fuel' source input = Some cs' /\
            stdout st' = cout cs').
Proof.
  intros source loops0 input Hb Hnd.
  destruct (InitLoops_balanced source loops0 Hb) as (p & Hn & _ & _ & Hl).
  exists p. split; [apply bf_to_c_tokens|].
  split; [now apply parse_nested|]. split.
  - intros fuel cs' Hex. split.
    + unfold run_emitted. rewrite (parse_nested _ _ Hn).
      eapply c_exec_within_plain; eauto.
    + destruct (linked_simulation source _ Hnd fuel _ _ _ Hl _ _
                  (set_source_ptr (fresh input) 0) Hex
                  (related_fresh input) eq_refl)
        as (st' & Hss & Hp' & HR').
      destruct (steps_run_loop _ _ _ _ Hss ltac:(lia)) as [fuel' Hrun].
      exists fuel'. eexists. unfold ExecuteSource. cbv zeta.
      rewrite Hrun. split; [reflexivity|].
      cbn [stdout put]. now rewrite (rel_out _ _ HR').
  - intros fuel st' Hrun. split.
    + unfold ExecuteSource. cbv zeta.
      change (set_source_ptr (fresh input) 0) with (fresh input).
      now rewrite (run_loop_within_plain _ _ _ _ _ _ Hrun).
    + destruct (linked_simulation_back source _ Hnd fuel _ _ _ Hl fuel
                  (fresh input) (c_fresh input) st' (le_n _)
                  (related_fresh input) eq_refl Hrun)
        as (fuel1 & st1 & cs1 & fuelc & _ & Hrun1 & Hp1 & HR1 & Hex).
      assert (Hst : st1 = st').
      { destruct fuel1; cbn [run_loop_within] in Hrun1;
          destruct (Z.ltb_spec (source_ptr st1) (source_length source));
          try lia; congruence. }
      subst st1. exists fuelc, cs1. split; [|apply HR1].
      unfold run_emitted. rewrite (parse_nested _ _ Hn).
      eapply c_exec_within_plain; eauto.
Qed.

Lemma emitted_agrees_with_machine_witness :
  (exists fuel' st',
      ExecuteSource fuel' (prog "+++[.-]") zero_loops (fresh []) = Some st' /\
      stdout st' = [3; 2; 1; 10]) /\
  (exists fuel' cs',
      run_emitted fuel' (prog "+++[.-]") [] = Some cs' /\
      cout cs' = [3; 2; 1]).
Proof.
  assert (Hb : balanced (prog "+++[.-]")) by reflexivity.
  assert (Hnd : no_debug (prog "+++[.-]"))
    by (repeat constructor; discriminate).
  destruct (emitted_agrees_with_machine (prog "+++[.-]") zero_loops [] Hb Hnd)
    as (p & _ & Hp & Hfwd & Hback).
  vm_compute in Hp. injection Hp as <-. split.
  - assert (Hc : exists cs',
               c_exec_within agrees 20
                 [SIncCell; SIncCell; SIncCell; SWhile [SPutChar; SDecCell]]
                 (c_fresh []) = Some cs' /\ cout cs' = [3; 2; 1])
      by (eexists; split; vm_compute; reflexivity).
    destruct Hc as (cs' & Hc & Hout').
    destruct (Hfwd 20%nat cs' Hc) as (_ & fuel' & st' & Hrun & Hout).
    exists fuel', st'. split; [exact Hrun|].
    rewrite Hout, Hout'. reflexivity.
  - assert (Hm : exists st',
               run_loop_within benign 20 (prog "+++[.-]")
                 (loops (InitLoops (prog "+++[.-]") zero_loops)) (fresh [])
               = Some st' /\ stdout st' = [3; 2; 1])
      by (eexists; split; vm_compute; reflexivity).
    destruct Hm as (st' & Hm & Hout').
    destruct (Hback 20%nat st' Hm) as (_ & fuel' & cs' & Hrun & Hout).
    exists fuel', cs'. split; [exact Hrun|].
    rewrite <- Hout. exact Hout'.
Defined.

(* ================================================================== *)
(** ** Further properties of the jump resolver *)

Lemma scan_char_open ptr r :
  scan_char "[" ptr r = mkResolver (ptr :: stack r) (loops r) (errors r).
Proof. reflexivity. Qed.

Lemma scan_char_close_empty ptr r :
  stack r = [] ->
  scan_char "]" ptr r
  = mkResolver [] (loops r) (errors r ++ [MissingOpen ptr]).
Proof.
  intros H. unfold scan_char. cbn [Ascii.eqb Bool.eqb]. now rewrite H.
Qed.

Lemma scan_char_close_pop ptr r top below :
  stack r = top :: below ->
  scan_char "]" ptr r
  = mkResolver below (upd (upd (loops r) ptr top) top ptr) (errors r).
Proof.
  intros H. unfold scan_char. cbn [Ascii.eqb Bool.eqb]. now rewrite H.
Qed.

Lemma open_is_not_close source i :
  src_at source i = Some "["%char -> src_at source i <> Some "]"%char.
Proof. intros ->. discriminate. Qed.

(** One iteration of the scan keeps [scan_inv]. *)
Lemma scan_char_inv source loops0 ptr r c :
  0 <= ptr -> src_at source ptr = Some c ->
  scan_inv source loops0 ptr r ->
  scan_inv source loops0 (ptr + 1) (scan_char c ptr r).
Proof.
  intros Hptr Hc [Hst Hnd Herr Hcl Hop Hfr].
  destruct (Ascii.eqb_spec c "[") as [->|Hno].
  - (* push *)
    rewrite scan_char_open. constructor; cbn [stack loops errors].
    + intros i [<-|Hi]; [split; [lia | exact Hc]|].
      destruct (Hst i Hi). split; [lia | assumption].
    + constructor; [|exact Hnd]. intros Hin. apply Hst in Hin. lia.
    + intros e He. destruct (Herr e He) as (j & -> & Hj & Hsj).
      exists j. repeat split; auto; lia.
    + intros j Hj Hsj Hne.
      assert (j <> ptr) by (intros ->; rewrite Hc in Hsj; discriminate).
      destruct (Hcl j ltac:(lia) Hsj Hne) as (H1 & H2 & H3 & H4).
      repeat split; auto; try lia. intros [E|E]; [lia | contradiction].
    + intros i Hi Hsi Hni.
      assert (i <> ptr) by (intros ->; apply Hni; now left).
      destruct (Hop i ltac:(lia) Hsi ltac:(intros E; apply Hni; now right))
        as (H1 & H2 & H3 & H4).
      repeat split; auto; lia.
    + exact Hfr.
  - destruct (Ascii.eqb_spec c "]") as [->|Hnc].
    + destruct (stack r) as [|top below] eqn:Hstack.
      * (* a close without an open *)
        rewrite scan_char_close_empty by assumption.
        constructor; cbn [stack loops errors].
        -- intros i [].
        -- constructor.
        -- intros e He. apply in_app_or in He as [He|[<-|[]]].
           ++ destruct (Herr e He) as (j & -> & Hj & Hsj).
              exists j. repeat split; auto; lia.
           ++ exists ptr. repeat split; auto; lia.
        -- intros j Hj Hsj Hne.
           assert (j <> ptr)
             by (intros ->; apply Hne, in_or_app; right; now left).
           destruct (Hcl j ltac:(lia) Hsj
                       ltac:(intros E; apply Hne, in_or_app; now left))
             as (H1 & H2 & H3 & H4).
           repeat split; auto; lia.
        -- intros i Hi Hsi Hni.
           assert (i <> ptr) by (intros ->; rewrite Hc in Hsi; discriminate).
           destruct (Hop i ltac:(lia) Hsi Hni) as (H1 & H2 & H3 & H4).
           repeat split; auto; try lia.
           intros E. apply in_app_or in E as [E|[E|[]]]; [contradiction|].
           injection E as E. lia.
        -- exact Hfr.
      * (* a close that pops its open *)
        rewrite (scan_char_close_pop ptr r top below) by assumption.
        destruct (Hst top (or_introl eq_refl)) as [Htop Hstop].
        inversion Hnd as [|? ? Hnotin Hnd']; subst.
        constructor; cbn [stack loops errors].
        -- intros i Hi. destruct (Hst i (or_intror Hi)).
           split; [lia | assumption].
        -- exact Hnd'.
        -- intros e He. destruct (Herr e He) as (j & -> & Hj & Hsj).
           exists j. repeat split; auto; lia.
        -- intros j Hj Hsj Hne.
           destruct (Z.eq_dec j ptr) as [->|Hjp].
           ++ rewrite (upd_other _ top ptr ptr) by lia.
              rewrite upd_same, upd_same. repeat split; auto; lia.
           ++ assert (j <> top)
                by (intros ->; rewrite Hstop in Hsj; discriminate).
              destruct (Hcl j ltac:(lia) Hsj Hne) as (H1 & H2 & H3 & H4).
              assert (loops r j <> top) by (intros E; apply H4; now left).
              rewrite !(upd_other _ _ _ j) by assumption.
              rewrite !upd_other by lia.
              repeat split; auto; try lia.
              intros E. apply H4. now right.
        -- intros i Hi Hsi Hni.
           assert (i <> ptr) by (intros ->; rewrite Hc in Hsi; discriminate).
           destruct (Z.eq_dec i top) as [->|Hit].
           ++ rewrite upd_same, (upd_other _ top ptr ptr) by lia.
              rewrite upd_same. repeat split; auto; try lia.
              intros E. apply Herr in E as (j & [= <-] & Hj & _). lia.
           ++ destruct (Hop i ltac:(lia) Hsi
                          ltac:(intros [E|E]; [congruence | contradiction]))
                as (H1 & H2 & H3 & H4).
              assert (loops r i <> top)
                by (intros E; rewrite E, Hstop in H2; discriminate).
              rewrite !(upd_other _ _ _ i) by assumption.
              rewrite !upd_other by lia.
              repeat split; auto; lia.
        -- intros i Hi1 Hi2.
           assert (i <> ptr) by (intros ->; now apply Hi2).
           assert (i <> top) by (intros ->; now apply Hi1).
           rewrite !upd_other by assumption. now apply Hfr.
    + (* any other character *)
      rewrite scan_char_plain by assumption.
      constructor.
      * intros i Hi. destruct (Hst i Hi). split; [lia | assumption].
      * exact Hnd.
      * intros e He. destruct (Herr e He) as (j & -> & Hj & Hsj).
        exists j. repeat split; auto; lia.
      * intros j Hj Hsj Hne.
        assert (j <> ptr) by (intros ->; congruence).
        destruct (Hcl j ltac:(lia) Hsj Hne) as (H1 & H2 & H3 & H4).
        repeat split; auto; lia.
      * intros i Hi Hsi Hni.
        assert (i <> ptr) by (intros ->; congruence).
        destruct (Hop i ltac:(lia) Hsi Hni) as (H1 & H2 & H3 & H4).
        repeat split; auto; lia.
      * exact Hfr.
Qed.

Lemma scan_keeps_inv source loops0 l : forall ptr r,
  0 <= ptr -> sits source ptr l ->
  scan_inv source loops0 ptr r ->
  scan_inv source loops0 (ptr + source_length l) (scan l ptr r).
Proof.
  induction l as [|c l IH]; intros ptr r Hptr Hs Hinv; cbn [scan].
  - unfold source_length. cbn. now rewrite Z.add_0_r.
  - apply sits_cons in Hs as [Hc Hs]. rewrite source_length_cons.
    replace (ptr + (source_length l + 1)) with (ptr + 1 + source_length l)
      by lia.
    apply IH; [lia | exact Hs |]. now apply scan_char_inv.
Qed.

Lemma scan_inv_start source loops0 :
  scan_inv source loops0 0 (mkResolver [] loops0 []).
Proof.
  constructor; cbn [stack loops errors].
  - intros i [].
  - constructor.
  - intros e [].
  - intros j Hj. lia.
  - intros i Hi. lia.
  - reflexivity.
Qed.

(** The invariant at the end of the scan of the whole program. *)
Lemma scan_inv_end source loops0 :
  scan_inv source loops0 (source_length source)
    (scan source 0 (mkResolver [] loops0 [])).
Proof.
  apply (scan_keeps_inv source loops0 source 0); [lia | apply sits_self |].
  apply scan_inv_start.
Qed.

Lemma InitLoops_loops source loops0 :
  loops (InitLoops source loops0)
  = loops (scan source 0 (mkResolver [] loops0 [])).
Proof. unfold InitLoops. cbv zeta. now destruct (stack _). Qed.

Lemma InitLoops_missing_open source loops0 j :
  In (MissingOpen j) (errors (InitLoops source loops0)) <->
  In (MissingOpen j) (errors (scan source 0 (mkResolver [] loops0 []))).
Proof.
  unfold InitLoops. cbv zeta. destruct (stack _); [tauto|].
  cbn [errors]. rewrite in_app_iff. cbn. split; [|tauto].
  intros [H|[H|[]]]; [exact H | discriminate H].
Qed.

(** X1.  Every report of the resolver points at a bracket of the
    program: a missing open is reported at the position of a close
    bracket, a missing close at the position of an open bracket. *)
Theorem reports_point_at_brackets :
  forall source loops0 e,
    In e (errors (InitLoops source loops0)) ->
    match e with
    | MissingOpen j => src_at source j = Some "]"%char
    | MissingClose i => src_at source i = Some "["%char
    end.
Proof.
  intros source loops0 e He.
  pose proof (scan_inv_end source loops0) as [Hst _ Herr _ _ _].
  unfold InitLoops in He. cbv zeta in He.
  destruct (stack (scan source 0 (mkResolver [] loops0 []))) as [|top below].
  - destruct (Herr e He) as (j & -> & _ & Hj). exact Hj.
  - cbn [errors] in He. apply in_app_or in He as [He|[<-|[]]].
    + destruct (Herr e He) as (j & -> & _ & Hj). exact Hj.
    + apply Hst. now left.
Qed.

Lemma reports_point_at_brackets_witness :
  src_at (prog "+]-[") 1 = Some "]"%char /\
  src_at (prog "+]-[") 3 = Some "["%char.
Proof.
  split.
  - apply (reports_point_at_brackets (prog "+]-[") zero_loops (MissingOpen 1)).
    vm_compute. auto.
  - apply (reports_point_at_brackets (prog "+]-[") zero_loops
             (MissingClose 3)).
    vm_compute. auto.
Defined.

(** X2.  The resolver writes [loops] at bracket positions only: every
    other entry, inside or outside the program, keeps the value it had on
    entry. *)
Theorem InitLoops_writes_brackets_only :
  forall source loops0 i,
    src_at source i <> Some "["%char -> src_at source i <> Some "]"%char ->
    loops (InitLoops source loops0) i = loops0 i.
Proof.
  intros source loops0 i Ho Hc. rewrite InitLoops_loops.
  now apply (inv_frame _ _ _ _ (scan_inv_end source loops0)).
Qed.

Lemma InitLoops_writes_brackets_only_witness :
  loops (InitLoops (prog "[+]") (fun _ => 77)) 1 = 77 /\
  loops (InitLoops (prog "[+]") (fun _ => 77)) 3 = 77.
Proof.
  split; apply InitLoops_writes_brackets_only; vm_compute; discriminate.
Defined.

(** X3.  On any program, balanced or not, the brackets that do have a
    partner are linked: a close bracket that is not reported, and an open
    bracket that is not left on the stack at the end of the scan, is
    mapped to a bracket of the other kind on the right side of it, and
    the map sends that partner back. *)
Theorem matched_brackets_are_linked :
  forall source loops0 k,
    (src_at source k = Some "]"%char /\
     ~ In (MissingOpen k) (errors (InitLoops source loops0))) \/
    (src_at source k = Some "["%char /\
     ~ In k (stack (scan source 0 (mkResolver [] loops0 [])))) ->
    let jump := loops (InitLoops source loops0) in
    jump (jump k) = k /\
    (src_at source k = Some "]"%char ->
     jump k < k /\ src_at source (jump k) = Some "["%char) /\
    (src_at source k = Some "["%char ->
     k < jump k /\ src_at source (jump k) = Some "]"%char).
Proof.
  intros source loops0 k Hk jump. unfold jump. rewrite InitLoops_loops.
  pose proof (scan_inv_end source loops0) as [_ _ _ Hcl Hop _].
  destruct Hk as [[Hs Hne]|[Hs Hni]].
  - rewrite InitLoops_missing_open in Hne.
    destruct (Hcl k (src_at_Some _ _ _ Hs) Hs Hne) as (H1 & H2 & H3 & _).
    split; [exact H3|]. split; [intros _; split; [lia | exact H2]|].
    intros E. rewrite Hs in E. discriminate E.
  - destruct (Hop k (src_at_Some _ _ _ Hs) Hs Hni) as (H1 & H2 & H3 & _).
    split; [exact H3|]. split; [|intros _; split; [lia | exact H2]].
    intros E. rewrite Hs in E. discriminate E.
Qed.

Lemma matched_brackets_are_linked_witness :
  let jump := loops (InitLoops (prog "][[]") zero_loops) in
  jump (jump 3) = 3 /\ jump (jump 2) = 2.
Proof.
  intros jump. split.
  - apply (matched_brackets_are_linked (prog "][[]") zero_loops 3).
    left. split; [reflexivity|]. vm_compute. intros [H|[H|[]]]; discriminate H.
  - apply (matched_brackets_are_linked (prog "][[]") zero_loops 2).
    right. split; [reflexivity|]. vm_compute. intros [H|[]]. discriminate H.
Defined.

(** What the scan writes does not depend on what [loops] held: an entry
    is either written with the same value or left alone. *)
Lemma scan_loops_indep l : forall ptr stk errs f g,
  stack (scan l ptr (mkResolver stk f errs))
  = stack (scan l ptr (mkResolver stk g errs)) /\
  errors (scan l ptr (mkResolver stk f errs))
  = errors (scan l ptr (mkResolver stk g errs)) /\
  forall i,
    loops (scan l ptr (mkResolver stk f errs)) i
    = loops (scan l ptr (mkResolver stk g errs)) i \/
    (loops (scan l ptr (mkResolver stk f errs)) i = f i /\
     loops (scan l ptr (mkResolver stk g errs)) i = g i).
Proof.
  induction l as [|c l IH]; intros ptr stk errs f g; cbn [scan].
  - cbn. auto.
  - destruct (Ascii.eqb_spec c "[") as [->|Hno].
    + rewrite !scan_char_open. cbn [stack loops errors]. apply IH.
    + destruct (Ascii.eqb_spec c "]") as [->|Hnc].
      * destruct stk as [|top below].
        -- rewrite !scan_char_close_empty by reflexivity.
           cbn [stack loops errors]. apply IH.
        -- rewrite !(scan_char_close_pop ptr _ top below) by reflexivity.
           cbn [stack loops errors].
           destruct (IH (ptr + 1) below errs
                       (upd (upd f ptr top) top ptr)
                       (upd (upd g ptr top) top ptr)) as (Hs & He & Hl).
           split; [exact Hs|]. split; [exact He|].
           intros i. destruct (Hl i) as [E|[E1 E2]]; [now left|].
           rewrite E1, E2. unfold upd.
           destruct (i =? top); [now left|].
           destruct (i =? ptr); [now left | now right].
      * rewrite !scan_char_plain by assumption. apply IH.
Qed.

(** On a balanced program the entries at the brackets are the same
    whatever [loops] held on entry. *)
Lemma balanced_loops_indep source l0 l1 i c :
  balanced source ->
  src_at source i = Some c -> c = "["%char \/ c = "]"%char ->
  loops (InitLoops source l0) i = loops (InitLoops source l1) i.
Proof.
  intros Hb Hi Hc.
  assert (Hfix : forall f,
             loops (InitLoops source f) i
             = loops (InitLoops source (fun _ => -1)) i).
  { intros f. rewrite !InitLoops_loops.
    destruct (scan_loops_indep source 0 [] [] f (fun _ => -1))
      as (_ & _ & Hl).
    destruct (Hl i) as [E|[_ E]]; [exact E|].
    exfalso.
    destruct (InitLoops_balanced source (fun _ => -1) Hb)
      as (p & _ & _ & _ & Hlk).
    rewrite InitLoops_loops in Hlk.
    destruct (linked_partner _ _ _ _ _ Hlk i c (src_at_Some _ _ _ Hi) Hi)
      as [Ho Hcl].
    pose proof (src_at_Some _ _ _ Hi).
    destruct Hc as [Hc|Hc]; [apply Ho in Hc | apply Hcl in Hc]; lia. }
  now rewrite (Hfix l0), (Hfix l1).
Qed.

(** The machine reads [loops] at the cursor only, and only on a
    bracket. *)
Lemma exec_instr_ext lp lp' c st :
  (c = "["%char \/ c = "]"%char -> lp (source_ptr st) = lp' (source_ptr st)) ->
  exec_instr lp c st = exec_instr lp' c st.
Proof.
  intros H. unfold exec_instr.
  destruct (Ascii.eqb_spec c "[") as [->|Hno].
  - cbn [Ascii.eqb Bool.eqb]. now rewrite H by now left.
  - destruct (Ascii.eqb_spec c "]") as [->|Hnc].
    + cbn [Ascii.eqb Bool.eqb]. now rewrite H by now right.
    + reflexivity.
Qed.

Lemma run_loop_ext source lp lp' :
  (forall i c, src_at source i = Some c -> c = "["%char \/ c = "]"%char ->
               lp i = lp' i) ->
  forall fuel st, run_loop fuel source lp st = run_loop fuel source lp' st.
Proof.
  intros H. induction fuel as [|fuel IH]; intros st; cbn [run_loop];
    [reflexivity|].
  destruct (source_ptr st <? source_length source); [|reflexivity].
  unfold step. destruct (src_at source (source_ptr st)) as [c|] eqn:Hc;
    [|reflexivity].
  rewrite (exec_instr_ext lp lp' c st) by (intros Hb; now apply (H _ c)).
  destruct (exec_instr lp' c st); [apply IH | reflexivity].
Qed.

(** X5.  A run of a balanced program does not depend on what the
    [loops] array held on entry: in interactive mode, where [main] resets
    the tape but not [loops] between two batches, a balanced batch runs as
    it would at program start. *)
Theorem balanced_run_ignores_stale_loops :
  forall source loops0 loops1 fuel st,
    balanced source ->
    ExecuteSource fuel source loops0 st = ExecuteSource fuel source loops1 st.
Proof.
  intros source loops0 loops1 fuel st Hb. unfold ExecuteSource. cbv zeta.
  rewrite (run_loop_ext source (loops (InitLoops source loops0))
             (loops (InitLoops source loops1))); [reflexivity|].
  intros i c Hi Hc. now apply (balanced_loops_indep source _ _ i c).
Qed.

Lemma balanced_run_ignores_stale_loops_witness :
  ExecuteSource 20 (prog "+[-]") (loops (InitLoops (prog "[]") zero_loops))
    (fresh [])
  = ExecuteSource 20 (prog "+[-]") zero_loops (fresh []).
Proof.
  apply balanced_run_ignores_stale_loops. reflexivity.
Defined.

(** An unbalanced batch does depend on it: after the batch [[]] the
    lone open bracket of [[+.] jumps over the increment. *)
Example unbalanced_run_sees_stale_loops :
  option_map stdout
    (ExecuteSource 5 (prog "[+.") zero_loops (fresh [])) = Some [1; 10] /\
  option_map stdout
    (ExecuteSource 5 (prog "[+.") (loops (InitLoops (prog "[]") zero_loops))
       (fresh [])) = Some [0; 10].
Proof. split; vm_compute; reflexivity. Qed.

(* ================================================================== *)
(** ** Further properties of the emitter *)

Lemma bal_tokens source : forall d, bal d source = tbal d (tokens source).
Proof.
  induction source as [|c rest IH]; intros d; cbn [bal tokens];
    [reflexivity|].
  destruct (Ascii.eqb_spec c "[") as [->|Hno]; [apply IH|].
  destruct (Ascii.eqb_spec c "]") as [->|Hnc].
  - cbn. destruct d; [reflexivity | apply IH].
  - apply Ascii.eqb_neq in Hno, Hnc. unfold token_of_char.
    rewrite Hno, Hnc.
    repeat match goal with
           | |- context [if ?b then _ else _] => destruct b; [apply IH|]
           end.
    apply IH.
Qed.

Lemma tbal_app a : forall k, tbal k a = true ->
  forall d b, tbal (k + d) (a ++ b) = tbal d b.
Proof.
  induction a as [|t a IH]; intros k Hk d b; cbn [tbal app] in *.
  - apply Nat.eqb_eq in Hk. now subst k.
  - destruct t; try (apply (IH k Hk)).
    + apply (IH (S k) Hk).
    + destruct k as [|k]; [discriminate|]. apply (IH k Hk).
Qed.

(** What the parser accepts as a block is balanced, and what it leaves
    is the end of a block. *)
Lemma parse_block_balanced fuel : forall ts p rest,
  parse_block fuel ts = Some (p, rest) ->
  block_end rest /\ exists pre, ts = pre ++ rest /\ tbal 0 pre = true.
Proof.
  induction fuel as [|fuel IH]; intros ts p rest H; [discriminate|].
  cbn [parse_block] in H.
  assert (Hsimple : forall t s r,
             ts = t :: r -> t <> TWhile -> t <> TClose ->
             match parse_block fuel r with
             | Some (more, after) => Some (s :: more, after)
             | None => None
             end = Some (p, rest) ->
             block_end rest /\
             exists pre, ts = pre ++ rest /\ tbal 0 pre = true).
  { intros t s r -> Hw Hc Hp.
    destruct (parse_block fuel r) as [[more after]|] eqn:Hr; [|discriminate].
    injection Hp as <- <-.
    destruct (IH _ _ _ Hr) as (He & pre & -> & Hb).
    split; [exact He|]. exists (t :: pre). split; [reflexivity|].
    destruct t; try contradiction; exact Hb. }
  destruct ts as [|t r].
  - injection H as <- <-. split; [now left|]. now exists [].
  - destruct t;
      try (eapply Hsimple; [reflexivity | discriminate | discriminate
                           | exact H]).
    + destruct (parse_block fuel r) as [[body after]|] eqn:Hr;
        [|discriminate].
      destruct after as [|t' r']; [discriminate|].
      destruct t'; try discriminate.
      destruct (parse_block fuel r') as [[more after']|] eqn:Hr';
        [|discriminate].
      injection H as <- <-.
      destruct (IH _ _ _ Hr) as (_ & pre1 & -> & Hb1).
      destruct (IH _ _ _ Hr') as (He & pre2 & -> & Hb2).
      split; [exact He|].
      exists (TWhile :: pre1 ++ TClose :: pre2). split.
      * cbn [app]. rewrite <- app_assoc. reflexivity.
      * cbn [tbal]. rewrite (tbal_app pre1 0 Hb1 1%nat). exact Hb2.
    + injection H as <- <-. split; [right; eauto|]. now exists [].
Qed.

Lemma string_app_assoc (a b c : string) :
  ((a ++ b) ++ c = a ++ (b ++ c))%string.
Proof. induction a as [|x a IH]; cbn; [reflexivity | now rewrite IH]. Qed.

Lemma string_app_inv_head (a x y : string) :
  (a ++ x = a ++ y)%string -> x = y.
Proof.
  induction a as [|c a IH]; cbn; intros H; [exact H|].
  injection H as H. now apply IH.
Qed.

(** No line of the emitted program is the beginning of another one. *)
Lemma token_text_prefix_free t1 t2 (x y : string) :
  (token_text t1 ++ x = token_text t2 ++ y)%string -> t1 = t2 /\ x = y.
Proof.
  destruct t1, t2; cbn; intros H;
    first [ discriminate H
          | split; [reflexivity|]; now repeat injection H as H
          | exfalso; repeat (injection H as H); discriminate H ].
Qed.

Lemma token_lines_inj ts1 : forall ts2,
  (token_lines ts1 ++ c_footer = token_lines ts2 ++ c_footer)%string ->
  ts1 = ts2.
Proof.
  induction ts1 as [|t1 r1 IH]; intros [|t2 r2] H; cbn [token_lines] in H.
  - reflexivity.
  - exfalso. destruct t2; cbn in H; discriminate H.
  - exfalso. destruct t1; cbn in H; discriminate H.
  - rewrite !string_app_assoc in H.
    apply token_text_prefix_free in H as [-> H]. f_equal. now apply IH.
Qed.

(** X6.  The file written by [bf_to_c] is the header, lines with
    matching braces and the footer, hence a C program, exactly when the
    brackets of the input are balanced: the translator itself checks
    nothing.  The lines between header and footer are determined by the
    file, so that this is a property of the text written. *)
Theorem emitted_parses_iff_balanced :
  forall source,
    (exists ts p,
        bf_to_c source = (c_header ++ token_lines ts ++ c_footer)%string /\
        parse ts = Some p)
    <-> balanced source.
Proof.
  intros source. split.
  - intros (ts & p & Htext & Hp).
    rewrite bf_to_c_tokens in Htext.
    apply string_app_inv_head, token_lines_inj in Htext. subst ts.
    unfold parse in Hp.
    destruct (parse_block (S (List.length (tokens source))) (tokens source))
      as [[p' rest]|] eqn:Hpb; [|discriminate].
    destruct rest; [|discriminate].
    destruct (parse_block_balanced _ _ _ _ Hpb) as (_ & pre & Hpre & Hb).
    rewrite app_nil_r in Hpre. unfold balanced.
    now rewrite bal_tokens, Hpre.
  - intros Hb. destruct (balanced_nested _ Hb) as [p Hp].
    exists (tokens source), p.
    split; [apply bf_to_c_tokens | now apply parse_nested].
Qed.

(** X7.  Two inputs are translated to the same file exactly when they
    have the same sequence of the eight instructions: comments and the
    debug instructions leave no trace in the emitted program, and nothing
    else is lost. *)
Theorem bf_to_c_same_file_iff_same_instructions :
  forall a b, bf_to_c a = bf_to_c b <-> tokens a = tokens b.
Proof.
  intros a b. rewrite !bf_to_c_tokens. split.
  - intros H. apply string_app_inv_head in H. now apply token_lines_inj.
  - now intros ->.
Qed.

(* ================================================================== *)
(** ** Further properties of the tape machine *)

Lemma upd_range a i v lo hi :
  (forall k, lo <= a k <= hi) -> lo <= v <= hi ->
  forall k, lo <= upd a i v k <= hi.
Proof. intros Ha Hv k. unfold upd. destruct (k =? i); auto. Qed.

(** One instruction keeps the variables within their types. *)
Lemma exec_instr_ok lp c st st' :
  machine_ok st -> exec_instr lp c st = Some st' -> machine_ok st'.
Proof.
  intros [Hc Hm Ht Hd Hmem] H. unfold SHRT_MAX in *.
  assert (Hs : forall z, -32768 <= short_of_int z <= 32767)
    by apply short_of_int_range.
  unfold exec_instr in H.
  break_match_in H; try discriminate; injection H as <-;
    constructor; unfold SHRT_MAX;
    cbn [tape cell max_cell_used debug_counter memory_counter set_tape
         set_source_ptr put];
    auto; try lia;
    try (apply upd_range; auto; lia).
  - (* the new high-water mark *)
    pose proof (Hs (cell st + 1)).
    match goal with H : (_ >? _) = true |- _ => apply Z.gtb_lt in H end. lia.
Qed.

Lemma step_ok source lp st st' :
  machine_ok st -> step source lp st = Some st' -> machine_ok st'.
Proof.
  intros Hok H. unfold step in H.
  destruct (src_at source (source_ptr st)) as [c|]; [|discriminate].
  destruct (exec_instr lp c st) as [st1|] eqn:He; [|discriminate].
  injection H as <-. destruct (exec_instr_ok _ _ _ _ Hok He).
  constructor; assumption.
Qed.

Lemma fresh_ok input : machine_ok (fresh input).
Proof. constructor; unfold SHRT_MAX; cbn; intros; lia. Qed.

(** X8.  Along a run that starts with the variables within their types
    (as at program start) they stay there: the cell pointer and every cell
    are [short], and the high-water mark stays within [0 .. 32767].
    The tape dump therefore never reads beyond the tape: it is a defined
    step as long as its counter can be incremented. *)
Theorem run_keeps_variables_in_range :
  forall source lp st st',
    machine_ok st -> steps source lp st st' ->
    machine_ok st' /\
    (src_at source (source_ptr st') = Some "@"%char ->
     memory_counter st' < INT_MAX ->
     exists st'', step source lp st' = Some st'').
Proof.
  intros source lp st st' Hok Hss.
  assert (Hok' : machine_ok st').
  { induction Hss as [st | st st1 st2 Hs _ IH]; [exact Hok|].
    apply IH. eapply step_ok; eauto. }
  split; [exact Hok'|]. intros Hc Hm.
  unfold step. rewrite Hc. unfold exec_instr. cbn [Ascii.eqb Bool.eqb].
  apply Z.ltb_lt in Hm. rewrite Hm.
  destruct Hok' as [_ Hmax _ _ _]. unfold SHRT_MAX in Hmax.
  assert (Hlt : (max_cell_used st' <? TAPESIZE) = true)
    by (apply Z.ltb_lt; unfold TAPESIZE; lia).
  rewrite Hlt. cbn [andb]. eauto.
Qed.

Lemma run_keeps_variables_in_range_witness :
  exists st' st'',
    steps (prog ">>@") zero_loops (fresh []) st' /\
    max_cell_used st' = 2 /\
    step (prog ">>@") zero_loops st' = Some st''.
Proof.
  assert (Hss : exists st',
             steps (prog ">>@") zero_loops (fresh []) st' /\
             max_cell_used st' = 2 /\ source_ptr st' = 2 /\
             memory_counter st' = 1).
  { eexists. split.
    - eapply steps_step; [reflexivity|].
      eapply steps_step; [reflexivity|]. apply steps_refl.
    - repeat split. }
  destruct Hss as (st' & Hss & Hmax & Hp & Hm).
  destruct (run_keeps_variables_in_range (prog ">>@") zero_loops (fresh [])
              st' (fresh_ok []) Hss) as [_ Hdump].
  destruct Hdump as [st'' Hs].
  - rewrite Hp. reflexivity.
  - rewrite Hm. reflexivity.
  - exists st', st''. split; [exact Hss|]. split; [exact Hmax | exact Hs].
Defined.

(** One iteration never retracts output, never puts input back, and
    never lowers a counter or the high-water mark. *)
Lemma step_monotone source lp st st' :
  step source lp st = Some st' ->
  (exists out, stdout st' = stdout st ++ out) /\
  (exists used, stdin st = used ++ stdin st' /\
                (List.length used <= 1)%nat) /\
  debug_counter st <= debug_counter st' /\
  memory_counter st <= memory_counter st' /\
  max_cell_used st <= max_cell_used st'.
Proof.
  intros H. unfold step in H.
  destruct (src_at source (source_ptr st)) as [c|]; [|discriminate].
  destruct (exec_instr lp c st) as [st1|] eqn:He; [|discriminate].
  injection H as <-.
  cbn [stdout stdin debug_counter memory_counter max_cell_used
       set_source_ptr].
  unfold exec_instr in He.
  break_match_in He; try discriminate; injection He as <-;
    cbn [stdout stdin debug_counter memory_counter max_cell_used
         set_source_ptr set_tape put];
    (split; [first [ now (exists []; rewrite app_nil_r) | eauto ]|]);
    (split; [first [ now (exists []; split; [reflexivity | cbn; lia])
                   | idtac ]|]);
    try (repeat split; lia).
  all: try match goal with H : stdin _ = _ |- _ => rewrite ?H end.
  all: first [ exists []; split; [reflexivity | cbn; lia]
             | eexists [_]; split; [reflexivity | cbn; lia] ].
Qed.

Lemma run_loop_monotone source lp fuel : forall st st',
  run_loop fuel source lp st = Some st' ->
  (exists out, stdout st' = stdout st ++ out) /\
  (exists used, stdin st = used ++ stdin st' /\
                (List.length used <= fuel)%nat) /\
  debug_counter st <= debug_counter st' /\
  memory_counter st <= memory_counter st' /\
  max_cell_used st <= max_cell_used st'.
Proof.
  assert (Hstop : forall st (n : nat),
             (exists out, stdout st = stdout st ++ out) /\
             (exists used, stdin st = used ++ stdin st /\
                           (List.length used <= n)%nat) /\
             debug_counter st <= debug_counter st /\
             memory_counter st <= memory_counter st /\
             max_cell_used st <= max_cell_used st).
  { intros st n. split; [exists []; now rewrite app_nil_r|].
    split; [exists []; split; [reflexivity | cbn; lia]|]. lia. }
  induction fuel as [|fuel IH]; intros st st' H; cbn [run_loop] in H;
    destruct (source_ptr st <? source_length source);
    try discriminate; try (injection H as <-; apply Hstop).
  destruct (step source lp st) as [st1|] eqn:Hs; [|discriminate].
  destruct (step_monotone _ _ _ _ Hs)
    as ([o1 Ho1] & (u1 & Hu1 & Hl1) & Hd1 & Hm1 & Hx1).
  destruct (IH _ _ H) as ([o2 Ho2] & (u2 & Hu2 & Hl2) & Hd2 & Hm2 & Hx2).
  split; [exists (o1 ++ o2); now rewrite Ho2, Ho1, app_assoc|].
  split; [|lia].
  exists (u1 ++ u2). split; [now rewrite Hu1, Hu2, app_assoc|].
  rewrite length_app. lia.
Qed.

(** X9.  A run only ever appends to the output, ending with its
    newline, and consumes the input from the front, at most one character
    per iteration; the two debug counters and the high-water mark never
    decrease. *)
Theorem run_appends_output_consumes_input :
  forall fuel source loops0 st st',
    ExecuteSource fuel source loops0 st = Some st' ->
    (exists out, stdout st' = stdout st ++ out ++ [10]) /\
    (exists used, stdin st = used ++ stdin st' /\
                  (List.length used <= fuel)%nat) /\
    debug_counter st <= debug_counter st' /\
    memory_counter st <= memory_counter st' /\
    max_cell_used st <= max_cell_used st'.
Proof.
  intros fuel source loops0 st st' H. unfold ExecuteSource in H.
  cbv zeta in H.
  destruct (run_loop fuel source (loops (InitLoops source loops0))
              (set_source_ptr st 0)) as [st1|] eqn:Hrun; [|discriminate].
  injection H as <-.
  destruct (run_loop_monotone _ _ _ _ _ Hrun)
    as ([out Ho] & Hu & Hd & Hm & Hx).
  cbn [stdout stdin debug_counter memory_counter max_cell_used
       set_source_ptr put] in *.
  split; [|auto].
  exists out. rewrite Ho, <- app_assoc. reflexivity.
Qed.

Lemma run_appends_output_consumes_input_witness :
  exists st',
    ExecuteSource 3 (prog ",.,")
      zero_loops (fresh ["a"%char; "b"%char; "c"%char]) = Some st' /\
    (exists used, ["a"%char; "b"%char; "c"%char] = used ++ stdin st' /\
                  (List.length used <= 3)%nat).
Proof.
  assert (H : exists st',
             ExecuteSource 3 (prog ",.,")
               zero_loops (fresh ["a"%char; "b"%char; "c"%char]) = Some st')
    by (eexists; vm_compute; reflexivity).
  destruct H as [st' H]. exists st'. split; [exact H|].
  apply (run_appends_output_consumes_input _ _ _ _ _ H).
Defined.

(** An instruction of a straight-line program is defined on a machine
    whose cell pointer has room to move and whose counters have room to
    count. *)
Lemma exec_instr_straight lp c st :
  c <> "["%char -> c <> "]"%char -> c <> "<"%char ->
  0 <= cell st -> cell st + count_right [c] <= SHRT_MAX ->
  max_cell_used st <= SHRT_MAX ->
  debug_counter st < INT_MAX -> memory_counter st < INT_MAX ->
  exists st1,
    exec_instr lp c st = Some st1 /\
    source_ptr st1 = source_ptr st /\
    cell st1 = cell st + count_right [c] /\
    max_cell_used st1 <= SHRT_MAX /\
    debug_counter st1 <= debug_counter st + 1 /\
    memory_counter st1 <= memory_counter st + 1.
Proof.
  intros Ho Hc Hl Hcell Hroom Hmax Hd Hm.
  unfold count_right in *. cbn [count_occ] in *. unfold SHRT_MAX in *.
  assert (Hin : in_tape (cell st) = true).
  { unfold in_tape, TAPESIZE. apply andb_true_iff.
    split; [apply Z.leb_le | apply Z.ltb_lt];
      destruct (ascii_dec c ">"); cbn in Hroom; lia. }
  assert (Hmt : (max_cell_used st <? TAPESIZE) = true)
    by (apply Z.ltb_lt; unfold TAPESIZE; lia).
  apply Z.ltb_lt in Hd, Hm.
  apply Ascii.eqb_neq in Ho, Hc, Hl.
  unfold exec_instr. rewrite Ho, Hc, Hl, Hin, Hd, Hm, Hmt. cbn [andb].
  apply Z.ltb_lt in Hd, Hm.
  destruct (ascii_dec c ">") as [->|Hnr].
  - cbn [Ascii.eqb Bool.eqb]. cbn in Hroom.
    eexists. split; [reflexivity|].
    cbn [source_ptr cell max_cell_used debug_counter memory_counter].
    rewrite short_of_int_id by lia.
    destruct (cell st + 1 >? max_cell_used st); cbn; repeat split; lia.
  - apply Ascii.eqb_neq in Hnr. rewrite Hnr.
    repeat match goal with
           | |- context [if Ascii.eqb c ?x then _ else _] =>
               destruct (Ascii.eqb c x)
           | |- context [if ?b then _ else _] => destruct b
           | |- context [match stdin st with _ => _ end] =>
               destruct (stdin st)
           end;
      (eexists; split; [reflexivity|]; cbn; repeat split; lia).
Qed.

Lemma count_right_cons c l :
  count_right (c :: l) = count_right [c] + count_right l.
Proof.
  unfold count_right. cbn [count_occ].
  destruct (ascii_dec c ">"); lia.
Qed.

Lemma count_right_nonneg l : 0 <= count_right l.
Proof. unfold count_right. lia. Qed.

(** A straight-line piece runs to its end. *)
Lemma straight_line_run source lp l : forall ptr st,
  sits source ptr l -> ptr + source_length l = source_length source ->
  source_ptr st = ptr -> straight_line l ->
  0 <= cell st -> cell st + count_right l <= SHRT_MAX ->
  max_cell_used st <= SHRT_MAX ->
  debug_counter st + source_length l <= INT_MAX ->
  memory_counter st + source_length l <= INT_MAX ->
  exists st',
    run_loop (List.length l) source lp st = Some st' /\
    cell st' = cell st + count_right l /\
    source_ptr st' = source_length source.
Proof.
  induction l as [|c l IH];
    intros ptr st Hs Hend Hptr Hsl Hcell Hroom Hmax Hd Hm.
  - assert (Hz : source_length (@nil ascii) = 0) by reflexivity.
    assert (Hz' : count_right [] = 0) by reflexivity.
    rewrite Hz in Hend. cbn [run_loop List.length].
    destruct (Z.ltb_spec (source_ptr st) (source_length source)); [lia|].
    exists st. rewrite Hz'. split; [reflexivity|]. split; lia.
  - apply sits_cons in Hs as [Hc Hs].
    rewrite source_length_cons in *. rewrite count_right_cons in Hroom.
    pose proof (source_length_nonneg l) as Hnn.
    pose proof (count_right_nonneg l) as Hcn.
    pose proof (count_right_nonneg [c]) as Hc1.
    inversion Hsl as [|? ? (Ho & Hcl & Hl) Hsl']; subst.
    destruct (exec_instr_straight lp c st Ho Hcl Hl Hcell ltac:(lia) Hmax
                ltac:(lia) ltac:(lia))
      as (st1 & He & Hp1 & Hc1' & Hm1 & Hd1 & Hmm1).
    cbn [run_loop List.length].
    destruct (Z.ltb_spec (source_ptr st) (source_length source)); [|lia].
    unfold step. rewrite Hc, He.
    destruct (IH (source_ptr st + 1)
                (set_source_ptr st1 (source_ptr st1 + 1)) Hs ltac:(lia)
                ltac:(cbn; lia) Hsl' ltac:(cbn; lia) ltac:(cbn; lia)
                ltac:(cbn; lia) ltac:(cbn; lia) ltac:(cbn; lia))
      as (st' & Hrun & Hcell' & Hp').
    exists st'. split; [exact Hrun|]. split; [|exact Hp'].
    rewrite Hcell'. cbn [cell set_source_ptr]. rewrite count_right_cons. lia.
Qed.

(** X10.  A program without brackets and without a move to the left,
    with at most 32767 moves to the right, always runs to completion from
    a fresh machine, in exactly [source_length] iterations: no instruction
    of it has undefined behaviour, and the cell pointer ends on the number
    of moves. *)
Theorem straight_line_runs_to_completion :
  forall source loops0 input,
    straight_line source ->
    count_right source <= SHRT_MAX ->
    source_length source < INT_MAX ->
    exists st',
      ExecuteSource (List.length source) source loops0 (fresh input)
      = Some st' /\
      cell st' = count_right source /\
      source_ptr st' = source_length source.
Proof.
  intros source loops0 input Hsl Hroom Hlen.
  destruct (straight_line_run source (loops (InitLoops source loops0))
              source 0 (set_source_ptr (fresh input) 0) (sits_self source))
    as (st' & Hrun & Hcell & Hp);
    cbn [cell max_cell_used debug_counter memory_counter source_ptr
         set_source_ptr fresh];
    unfold SHRT_MAX in *; try lia; try assumption.
  exists (put st' (bytes_of_string nl)). unfold ExecuteSource. cbv zeta.
  rewrite Hrun. split; [reflexivity|]. split; [exact Hcell | exact Hp].
Qed.

Lemma straight_line_runs_to_completion_witness :
  exists st',
    ExecuteSource 6 (prog "+>,.#@") zero_loops (fresh []) = Some st' /\
    cell st' = 1.
Proof.
  destruct (straight_line_runs_to_completion (prog "+>,.#@") zero_loops [])
    as (st' & Hrun & Hcell & _).
  - repeat constructor; discriminate.
  - vm_compute. discriminate.
  - reflexivity.
  - exists st'. split; [exact Hrun | exact Hcell].
Defined.

Lemma step_decrement source lp st :
  src_at source (source_ptr st) = Some "-"%char ->
  in_tape (cell st) = true ->
  step source lp st
  = Some (set_source_ptr
            (if tape st (cell st) >? 0
             then set_tape st (upd (tape st) (cell st)
                                 (short_of_int (tape st (cell st) - 1)))
             else st)
            (source_ptr st + 1)).
Proof.
  intros Hc Hin. unfold step. rewrite Hc. unfold exec_instr.
  cbn [Ascii.eqb Bool.eqb]. rewrite Hin.
  destruct (tape st (cell st) >? 0); reflexivity.
Qed.

Lemma step_close source lp st :
  src_at source (source_ptr st) = Some "]"%char ->
  in_tape (cell st) = true ->
  step source lp st
  = Some (set_source_ptr st
            ((if tape st (cell st) =? 0 then source_ptr st
              else lp (source_ptr st)) + 1)).
Proof.
  intros Hc Hin. unfold step. rewrite Hc. unfold exec_instr.
  cbn [Ascii.eqb Bool.eqb]. rewrite Hin.
  destruct (tape st (cell st) =? 0); reflexivity.
Qed.

Lemma same_but_cell_refl st p : same_but_cell st (set_source_ptr st p).
Proof. unfold same_but_cell. cbn. repeat split. Qed.

Section ClearLoop.

Variable source : list ascii.
Variable lp : Z -> Z.
Variable lo : Z.
Hypothesis Hopen : src_at source lo = Some "["%char.
Hypothesis Hminus : src_at source (lo + 1) = Some "-"%char.
Hypothesis Hclose : src_at source (lo + 2) = Some "]"%char.
Hypothesis Hjump : lp lo = lo + 2.
Hypothesis Hback : lp (lo + 2) = lo.

(** Inside the loop, on a positive cell. *)
Lemma clear_loop_body n : forall st,
  source_ptr st = lo + 1 -> in_tape (cell st) = true ->
  tape st (cell st) = Z.of_nat (S n) -> Z.of_nat (S n) <= SHRT_MAX ->
  exists st',
    steps source lp st st' /\ source_ptr st' = lo + 3 /\
    tape st' (cell st') = 0 /\ same_but_cell st st'.
Proof.
  unfold SHRT_MAX.
  induction n as [|n IH]; intros st Hptr Hin Hv Hmax.
  - (* from 1 to 0, then out *)
    pose proof (step_decrement source lp st) as Hs1.
    rewrite Hptr in Hs1. specialize (Hs1 Hminus Hin).
    rewrite Hv in Hs1. cbn [Z.of_nat Pos.of_succ_nat Z.gtb Z.compare] in Hs1.
    set (st1 := set_source_ptr
                  (set_tape st (upd (tape st) (cell st)
                                  (short_of_int (1 - 1)))) (lo + 1 + 1))
      in Hs1.
    assert (Hv1 : tape st1 (cell st1) = 0) by (cbn; now rewrite upd_same).
    pose proof (step_close source lp st1) as Hs2.
    replace (source_ptr st1) with (lo + 2) in Hs2 by (cbn; lia).
    specialize (Hs2 Hclose Hin). rewrite Hv1 in Hs2. cbn [Z.eqb] in Hs2.
    eexists. split.
    { eapply steps_step; [exact Hs1|].
      eapply steps_step; [exact Hs2 | apply steps_refl]. }
    split; [cbn; lia|]. split; [cbn; now rewrite upd_same|].
    unfold same_but_cell. cbn. repeat split.
    intros k Hk. now apply upd_other.
  - (* one less, and round again *)
    pose proof (step_decrement source lp st) as Hs1.
    rewrite Hptr in Hs1. specialize (Hs1 Hminus Hin).
    assert (Hpos : (tape st (cell st) >? 0) = true)
      by (rewrite Hv; apply Z.gtb_lt; lia).
    rewrite Hpos in Hs1.
    set (st1 := set_source_ptr
                  (set_tape st (upd (tape st) (cell st)
                                  (short_of_int (tape st (cell st) - 1))))
                  (lo + 1 + 1)) in Hs1.
    assert (Hv1 : tape st1 (cell st1) = Z.of_nat (S n)).
    { cbn. rewrite upd_same, short_of_int_id; lia. }
    pose proof (step_close source lp st1) as Hs2.
    replace (source_ptr st1) with (lo + 2) in Hs2 by (cbn; lia).
    specialize (Hs2 Hclose Hin).
    assert (Hnz : (tape st1 (cell st1) =? 0) = false)
      by (rewrite Hv1; apply Z.eqb_neq; lia).
    rewrite Hnz, Hback in Hs2.
    destruct (IH (set_source_ptr st1 (lo + 1)) eq_refl Hin Hv1 ltac:(lia))
      as (st' & Hss & Hp' & Hz & Hsame).
    exists st'. split.
    { eapply steps_step; [exact Hs1|].
      eapply steps_step; [exact Hs2 | exact Hss]. }
    split; [exact Hp'|]. split; [exact Hz|].
    destruct Hsame as (H1 & H2 & H3 & H4 & H5 & H6 & H7).
    unfold same_but_cell. cbn in *. repeat split; auto.
    intros k Hk. rewrite H2 by assumption. now apply upd_other.
Qed.

(** On a negative cell the machine stays in the loop: wherever it
    is in it, the next iteration is defined, changes nothing but the
    cursor and leaves the cursor in the loop. *)
Lemma clear_loop_round st :
  source_ptr st = lo \/ source_ptr st = lo + 1 \/ source_ptr st = lo + 2 ->
  in_tape (cell st) = true -> tape st (cell st) < 0 ->
  exists q,
    step source lp st = Some (set_source_ptr st q) /\
    (q = lo \/ q = lo + 1 \/ q = lo + 2).
Proof.
  intros Hptr Hin Hneg.
  assert (Hnz : (tape st (cell st) =? 0) = false) by (apply Z.eqb_neq; lia).
  destruct Hptr as [Hp|[Hp|Hp]].
  - exists (lo + 1). split; [|auto].
    now rewrite (step_open source lp st lo Hopen Hp Hin), Hnz.
  - exists (lo + 2). split; [|auto].
    pose proof (step_decrement source lp st) as Hs.
    rewrite Hp in Hs. rewrite (Hs Hminus Hin).
    destruct (Z.gtb_spec (tape st (cell st)) 0); [lia|].
    do 2 f_equal. lia.
  - exists (lo + 1). split; [|auto].
    pose proof (step_close source lp st) as Hs.
    rewrite Hp in Hs. now rewrite (Hs Hclose Hin), Hnz, Hback.
Qed.

Lemma clear_loop_stays st st' :
  steps source lp st st' ->
  (source_ptr st = lo \/ source_ptr st = lo + 1 \/ source_ptr st = lo + 2) ->
  in_tape (cell st) = true -> tape st (cell st) < 0 ->
  (source_ptr st' = lo \/ source_ptr st' = lo + 1 \/
   source_ptr st' = lo + 2) /\
  set_source_ptr st' 0 = set_source_ptr st 0.
Proof.
  induction 1 as [st | st st1 st2 Hs Hss IH]; intros Hptr Hin Hneg.
  - split; [exact Hptr | reflexivity].
  - destruct (clear_loop_round st Hptr Hin Hneg) as (q & Hq & Hqr).
    rewrite Hs in Hq. injection Hq as ->.
    destruct (IH Hqr Hin Hneg) as [Hp' Heq].
    split; [exact Hp' | exact Heq].
Qed.

(** Hence no number of iterations completes the run. *)
Lemma clear_loop_spins fuel : forall st,
  source_ptr st = lo \/ source_ptr st = lo + 1 \/ source_ptr st = lo + 2 ->
  in_tape (cell st) = true -> tape st (cell st) < 0 ->
  run_loop fuel source lp st = None.
Proof.
  induction fuel as [|fuel IH]; intros st Hptr Hin Hneg; cbn [run_loop];
    assert (Hlt : source_ptr st < source_length source)
      by (destruct Hptr as [->|[->| ->]];
          [apply (src_at_Some _ _ _ Hopen) | apply (src_at_Some _ _ _ Hminus)
          | apply (src_at_Some _ _ _ Hclose)]);
    destruct (Z.ltb_spec (source_ptr st) (source_length source));
    try lia; [reflexivity|].
  destruct (clear_loop_round st Hptr Hin Hneg) as (q & Hq & Hqr).
  rewrite Hq. apply IH; auto.
Qed.

(** X11.  The clearing loop [[-]], wherever it stands in a program:
    entered on a cell that holds a non-negative [short] it ends with that
    cell at 0 and nothing else changed; entered on a negative cell (what
    an increment leaves at 32767) it never ends, because the decrement
    does not touch a cell that is not positive: every state the machine
    reaches is the state at entry with the cursor on one of the three
    characters of the loop, inside the program, and the next iteration
    from it is defined. *)
Theorem clear_loop_idiom :
  forall st,
    source_ptr st = lo -> in_tape (cell st) = true ->
    -32768 <= tape st (cell st) <= SHRT_MAX ->
    (0 <= tape st (cell st) ->
     exists st',
       steps source lp st st' /\ source_ptr st' = lo + 3 /\
       tape st' (cell st') = 0 /\ same_but_cell st st') /\
    (tape st (cell st) < 0 ->
     (forall st',
         steps source lp st st' ->
         lo <= source_ptr st' <= lo + 2 /\
         source_ptr st' < source_length source /\
         set_source_ptr st' 0 = set_source_ptr st 0 /\
         exists st'', step source lp st' = Some st'') /\
     (forall fuel, run_loop fuel source lp st = None)).
Proof.
  intros st Hptr Hin Hrange. split.
  - intros Hnn.
    pose proof (step_open source lp st lo Hopen Hptr Hin) as Hs.
    destruct (Z.eqb_spec (tape st (cell st)) 0) as [Hz|Hnz].
    + rewrite Hjump in Hs. eexists. split; [eapply steps_step;
        [exact Hs | apply steps_refl]|].
      split; [cbn; lia|]. split; [exact Hz | apply same_but_cell_refl].
    + destruct (Z.to_nat (tape st (cell st))) as [|n] eqn:Hn; [lia|].
      destruct (clear_loop_body n (set_source_ptr st (lo + 1)) eq_refl Hin
                  ltac:(cbn; lia) ltac:(lia))
        as (st' & Hss & Hp' & Hz' & Hsame).
      exists st'. split; [eapply steps_step; [exact Hs | exact Hss]|].
      split; [exact Hp'|]. split; [exact Hz' | exact Hsame].
  - intros Hneg. split; [|intros fuel; apply clear_loop_spins; auto].
    intros st' Hss.
    destruct (clear_loop_stays st st' Hss (or_introl Hptr) Hin Hneg)
      as [Hp' Heq].
    assert (Hcell : cell st' = cell st)
      by (apply (f_equal cell) in Heq; exact Heq).
    assert (Htape : tape st' = tape st)
      by (apply (f_equal tape) in Heq; exact Heq).
    split; [lia|]. split.
    + destruct Hp' as [->|[->| ->]];
        [apply (src_at_Some _ _ _ Hopen) | apply (src_at_Some _ _ _ Hminus)
        | apply (src_at_Some _ _ _ Hclose)].
    + split; [exact Heq|].
      destruct (clear_loop_round st' Hp') as (q & Hq & _).
      * now rewrite Hcell.
      * now rewrite Htape, Hcell.
      * eauto.
Qed.

End ClearLoop.

Lemma clear_loop_idiom_witness :
  (exists st',
      steps (prog "+[-]") (loops (InitLoops (prog "+[-]") zero_loops))
        (set_source_ptr (set_tape (fresh []) (fun _ => 5)) 1) st' /\
      tape st' (cell st') = 0) /\
  (exists st'',
      step (prog "+[-]") (loops (InitLoops (prog "+[-]") zero_loops))
        (set_source_ptr (set_tape (fresh []) (fun _ => -32768)) 1)
      = Some st'') /\
  run_loop 1000 (prog "+[-]") (loops (InitLoops (prog "+[-]") zero_loops))
    (set_source_ptr (set_tape (fresh []) (fun _ => -32768)) 1) = None.
Proof.
  split.
  - destruct (clear_loop_idiom (prog "+[-]")
                (loops (InitLoops (prog "+[-]") zero_loops)) 1
                eq_refl eq_refl eq_refl eq_refl eq_refl
                (set_source_ptr (set_tape (fresh []) (fun _ => 5)) 1)
                eq_refl eq_refl ltac:(unfold SHRT_MAX; cbn; lia))
      as [Hpos _].
    destruct (Hpos ltac:(cbn; lia)) as (st' & Hss & _ & Hz & _).
    exists st'. split; [exact Hss | exact Hz].
  - destruct (clear_loop_idiom (prog "+[-]")
                (loops (InitLoops (prog "+[-]") zero_loops)) 1
                eq_refl eq_refl eq_refl eq_refl eq_refl
                (set_source_ptr (set_tape (fresh []) (fun _ => -32768)) 1)
                eq_refl eq_refl ltac:(unfold SHRT_MAX; cbn; lia))
      as [_ Hneg].
    destruct (Hneg ltac:(cbn; lia)) as [Hstay Hspin].
    split; [|apply Hspin].
    destruct (Hstay _ (steps_refl _ _ _)) as (_ & _ & _ & Hdef).
    exact Hdef.
Defined.

(** Only a bracket moves the cursor inside the [switch]. *)
Lemma exec_instr_keeps_cursor lp c st st1 :
  c <> "["%char -> c <> "]"%char ->
  exec_instr lp c st = Some st1 -> source_ptr st1 = source_ptr st.
Proof.
  intros Ho Hc H. apply Ascii.eqb_neq in Ho, Hc.
  unfold exec_instr in H. rewrite Ho, Hc in H.
  break_match_in H; inversion H; reflexivity.
Qed.

Lemma no_brackets_at source i c :
  no_brackets source -> src_at source i = Some c ->
  c <> "["%char /\ c <> "]"%char.
Proof.
  unfold no_brackets, src_at. intros Hnb H.
  destruct (i <? 0); [discriminate|].
  apply nth_error_In in H. rewrite Forall_forall in Hnb. now apply Hnb.
Qed.

(** Without brackets the cursor only moves forward, so a run that ends
    has ended once every position has been visited. *)
Lemma loop_free_run_bound source lp :
  no_brackets source ->
  forall fuel st st',
    run_loop fuel source lp st = Some st' ->
    forall n, source_length source - source_ptr st <= Z.of_nat n ->
    run_loop n source lp st = Some st'.
Proof.
  intros Hnb. induction fuel as [|fuel IH]; intros st st' H n Hn.
  - cbn [run_loop] in H.
    destruct (Z.ltb_spec (source_ptr st) (source_length source));
      [discriminate|].
    destruct n; cbn [run_loop];
      destruct (Z.ltb_spec (source_ptr st) (source_length source));
      try lia; exact H.
  - cbn [run_loop] in H.
    destruct (Z.ltb_spec (source_ptr st) (source_length source)) as [Hlt|Hge].
    + destruct n as [|n]; [lia|]. cbn [run_loop].
      destruct (Z.ltb_spec (source_ptr st) (source_length source)); [|lia].
      destruct (step source lp st) as [st1|] eqn:Hs; [|discriminate].
      apply (IH _ _ H).
      unfold step in Hs.
      destruct (src_at source (source_ptr st)) as [c|] eqn:Hc;
        [|discriminate].
      destruct (exec_instr lp c st) as [st2|] eqn:He; [|discriminate].
      injection Hs as <-. cbn [source_ptr set_source_ptr].
      destruct (no_brackets_at _ _ _ Hnb Hc) as [Ho Hcl].
      rewrite (exec_instr_keeps_cursor _ _ _ _ Ho Hcl He). lia.
    + destruct n; cbn [run_loop];
        destruct (Z.ltb_spec (source_ptr st) (source_length source));
        try lia; exact H.
Qed.

(** X12.  A program without brackets performs at most
    [source_length] iterations: if its run ends at all, it ends within
    that many, so that running out of them means undefined behaviour, not
    a longer run. *)
Theorem loop_free_run_ends_within_length :
  forall source loops0 fuel st st',
    no_brackets source ->
    ExecuteSource fuel source loops0 st = Some st' ->
    ExecuteSource (List.length source) source loops0 st = Some st'.
Proof.
  intros source loops0 fuel st st' Hnb H. unfold ExecuteSource in *.
  cbv zeta in *.
  destruct (run_loop fuel source (loops (InitLoops source loops0))
              (set_source_ptr st 0)) as [st1|] eqn:Hrun; [|discriminate].
  rewrite (loop_free_run_bound source _ Hnb _ _ _ Hrun (List.length source)).
  - exact H.
  - cbn [source_ptr set_source_ptr]. unfold source_length. lia.
Qed.

Lemma loop_free_run_ends_within_length_witness :
  exists st',
    ExecuteSource 3 (prog "+<>") zero_loops (fresh []) = Some st'.
Proof.
  assert (H : exists st',
             ExecuteSource 50 (prog "+<>") zero_loops (fresh []) = Some st')
    by (eexists; vm_compute; reflexivity).
  destruct H as [st' H]. exists st'.
  apply (loop_free_run_ends_within_length (prog "+<>") zero_loops 50).
  - repeat constructor; discriminate.
  - exact H.
Defined.

(* ================================================================== *)
(** ** The jump table against structured loops *)

Lemma shape_flatten l p : shape l p -> flatten p = l.
Proof.
  unfold flatten.
  induction 1 as [| c l p Ho Hc Hs IH | body rest pb pr Hb IHb Hr IHr];
    cbn [flat_map flatten_instr app].
  - reflexivity.
  - now rewrite IH.
  - rewrite IHb, IHr, <- app_assoc. reflexivity.
Qed.

(** A balanced text is a structured program. *)
Lemma balanced_shape_len n : forall l,
  (List.length l <= n)%nat -> bal 0 l = true -> exists p, shape l p.
Proof.
  induction n as [|n IH]; intros l Hlen Hb.
  - destruct l; [exists []; constructor | cbn in Hlen; lia].
  - destruct l as [|c l]; [exists []; constructor|].
    cbn [List.length] in Hlen. cbn [bal] in Hb.
    destruct (Ascii.eqb_spec c "[") as [->|Hno].
    + destruct (bal_split (List.length l) l 0 (le_n _) Hb)
        as (body & rest & -> & Hbody & Hrest).
      rewrite length_app in Hlen. cbn [List.length] in Hlen.
      destruct (IH body ltac:(lia) Hbody) as [pb Hpb].
      destruct (IH rest ltac:(lia) Hrest) as [pr Hpr].
      exists (ILoop pb :: pr). now constructor.
    + destruct (Ascii.eqb_spec c "]") as [->|Hnc]; [discriminate Hb|].
      destruct (IH l ltac:(lia) Hb) as [p Hp].
      exists (IChar c :: p). now constructor.
Qed.

Lemma placed_le source lp lo hi p : placed source lp lo hi p -> lo <= hi.
Proof. induction 1; lia. Qed.

Lemma placed_frame source lp lp' lo hi p :
  placed source lp lo hi p ->
  (forall i, lo <= i < hi -> lp' i = lp i) ->
  placed source lp' lo hi p.
Proof.
  induction 1 as [lo | lo hi c p Hc Ho Hcl Hl IH
                 | lo mid hi pb pr Ho Hcl Hlo Hmid Hb IHb Hr IHr];
    intros Hsame.
  - constructor.
  - pose proof (placed_le _ _ _ _ _ Hl).
    apply placed_char; auto. apply IH. intros; apply Hsame; lia.
  - pose proof (placed_le _ _ _ _ _ Hb). pose proof (placed_le _ _ _ _ _ Hr).
    apply placed_loop with (mid := mid); auto.
    + rewrite Hsame by lia. exact Hlo.
    + rewrite Hsame by lia. exact Hmid.
    + apply IHb. intros; apply Hsame; lia.
    + apply IHr. intros; apply Hsame; lia.
Qed.

(** The scan places every loop of a structured piece. *)
Lemma scan_shape source l p :
  shape l p ->
  forall ptr r, sits source ptr l ->
    stack (scan l ptr r) = stack r /\
    (forall i, i < ptr \/ ptr + source_length l <= i ->
               loops (scan l ptr r) i = loops r i) /\
    placed source (loops (scan l ptr r)) ptr (ptr + source_length l) p.
Proof.
  induction 1 as [| c l p Hno Hnc Hs IH | body rest pb pr Hb IHb Hr IHr];
    intros ptr r Hsits.
  - cbn [scan]. unfold source_length. cbn. rewrite Z.add_0_r.
    repeat split; auto. constructor.
  - apply sits_cons in Hsits as [Hc Hst].
    cbn [scan]. rewrite scan_char_plain by assumption.
    destruct (IH (ptr + 1) r Hst) as (Hstk & Hf & Hl).
    rewrite source_length_cons.
    replace (ptr + (source_length l + 1)) with (ptr + 1 + source_length l)
      by lia.
    split; [exact Hstk|]. split; [intros i Hi; apply Hf; lia|].
    now apply placed_char.
  - apply sits_cons in Hsits as [Ho Hst].
    apply sits_app in Hst as [Hsb Hst].
    apply sits_cons in Hst as [Hcl Hsr].
    cbn [scan]. rewrite scan_app. cbn [scan].
    rewrite scan_char_open.
    set (r1 := mkResolver (ptr :: stack r) (loops r) (errors r)).
    destruct (IHb (ptr + 1) r1 Hsb) as (Hst2 & Hf2 & Hl2).
    set (r2 := scan body (ptr + 1) r1) in *.
    set (mid := ptr + 1 + source_length body) in *.
    rewrite (scan_char_close_pop mid r2 ptr (stack r)) by exact Hst2.
    set (r3 := mkResolver (stack r) (upd (upd (loops r2) mid ptr) ptr mid)
                 (errors r2)).
    destruct (IHr (mid + 1) r3 Hsr) as (Hst4 & Hf4 & Hl4).
    set (r4 := scan rest (mid + 1) r3) in *.
    pose proof (source_length_nonneg body) as Hnb.
    pose proof (source_length_nonneg rest) as Hnr.
    assert (Hlen : ptr + source_length ("["%char :: body ++ "]"%char :: rest)
                   = mid + 1 + source_length rest).
    { rewrite source_length_cons, source_length_app, source_length_cons.
      unfold mid. lia. }
    rewrite Hlen.
    assert (Hin : forall i, i < mid + 1 -> loops r4 i = loops r3 i)
      by (intros; apply Hf4; lia).
    split; [exact Hst4|]. split.
    + intros i Hi. rewrite Hf4 by lia. unfold r3. cbn [loops].
      rewrite !upd_other by (unfold mid; lia).
      now rewrite Hf2 by (fold mid; lia).
    + apply placed_loop with (mid := mid); auto.
      * rewrite Hin by (unfold mid; lia). unfold r3. cbn [loops].
        apply upd_same.
      * rewrite Hin by lia. unfold r3. cbn [loops].
        rewrite upd_other by (unfold mid; lia). apply upd_same.
      * apply placed_frame with (lp := loops r2); [exact Hl2|].
        intros i Hi. rewrite Hin by lia. unfold r3. cbn [loops].
        rewrite !upd_other by lia. reflexivity.
Qed.

(** What a character other than a bracket does depends neither on the
    jump table nor on the cursor, which it leaves alone. *)
Lemma exec_instr_cursor_free lp lp' c st st1 q :
  c <> "["%char -> c <> "]"%char ->
  exec_instr lp c st = Some st1 ->
  exec_instr lp' c (set_source_ptr st q) = Some (set_source_ptr st1 q).
Proof.
  intros Ho Hc H. apply Ascii.eqb_neq in Ho, Hc.
  unfold exec_instr in *.
  cbn [tape cell max_cell_used debug_counter memory_counter stdin stdout
       set_source_ptr].
  rewrite Ho, Hc in *.
  break_match_in H; try discriminate; injection H as <-; reflexivity.
Qed.

Lemma exec_instr_cursor_free_back lp lp' c st st2 q :
  c <> "["%char -> c <> "]"%char ->
  exec_instr lp c (set_source_ptr st q) = Some st2 ->
  exists st1, exec_instr lp' c st = Some st1 /\ st2 = set_source_ptr st1 q.
Proof.
  intros Ho Hc H. apply Ascii.eqb_neq in Ho, Hc.
  unfold exec_instr in *.
  cbn [tape cell max_cell_used debug_counter memory_counter stdin stdout
       set_source_ptr] in H.
  rewrite Ho, Hc in *.
  break_match_in H; try discriminate; injection H as <-;
    eexists; split; reflexivity.
Qed.

Lemma step_char source lp lo c st st1 :
  src_at source lo = Some c -> c <> "["%char -> c <> "]"%char ->
  exec_instr zero_loops c st = Some st1 ->
  step source lp (set_source_ptr st lo) = Some (set_source_ptr st1 (lo + 1)).
Proof.
  intros Hs Ho Hc He. unfold step. cbn [source_ptr set_source_ptr].
  rewrite Hs.
  now rewrite (exec_instr_cursor_free zero_loops lp c st st1 lo Ho Hc He).
Qed.

Lemma m_exec_mono fuel : forall fuel' p st st',
  (fuel <= fuel')%nat ->
  m_exec fuel p st = Some st' -> m_exec fuel' p st = Some st'.
Proof.
  induction fuel as [|fuel IH]; intros fuel' p st st' Hle H; [discriminate|].
  destruct fuel' as [|fuel']; [lia|].
  assert (Hle' : (fuel <= fuel')%nat) by lia.
  cbn [m_exec] in *.
  destruct p as [|[c|body] rest]; [exact H | |].
  - destruct (exec_instr zero_loops c st); [now apply IH | discriminate].
  - destruct (in_tape (cell st)); [|discriminate].
    destruct (tape st (cell st) =? 0); [now apply IH|].
    destruct (m_exec fuel body st) as [st1|] eqn:Hb; [|discriminate].
    rewrite (IH _ _ _ _ Hle' Hb). now apply IH.
Qed.

Lemma run_loop_close_as_open source lp lo mid st fuel :
  src_at source lo = Some "["%char -> src_at source mid = Some "]"%char ->
  lp lo = mid -> lp mid = lo -> source_ptr st = mid ->
  run_loop fuel source lp st = run_loop fuel source lp (set_source_ptr st lo).
Proof.
  intros Ho Hc Hlo Hmid Hptr.
  pose proof (src_at_Some _ _ _ Ho) as Hr1.
  pose proof (src_at_Some _ _ _ Hc) as Hr2.
  destruct fuel as [|fuel]; cbn [run_loop];
    cbn [source_ptr set_source_ptr]; rewrite Hptr;
    destruct (Z.ltb_spec mid (source_length source)); try lia;
    destruct (Z.ltb_spec lo (source_length source)); try lia;
    [reflexivity|].
  now rewrite <- (step_close_as_open source lp lo mid st).
Qed.

Lemma steps_cases source lp st st' :
  steps source lp st st' ->
  st = st' \/
  exists st1, step source lp st = Some st1 /\ steps source lp st1 st'.
Proof. intros [|? st1 ? Hs Hss]; [now left | right; eauto]. Qed.

Section Structured.

Variable source : list ascii.
Variable lp : Z -> Z.

(** What structured execution computes, the machine computes by
    iterating over the placed piece. *)
Lemma placed_forward fuel :
  forall lo hi p, placed source lp lo hi p ->
  forall st st',
    m_exec fuel p st = Some st' ->
    steps source lp (set_source_ptr st lo) (set_source_ptr st' hi).
Proof.
  induction fuel as [|fuel IH]; intros lo hi p Hl st st' H; [discriminate|].
  cbn [m_exec] in H.
  destruct Hl as [lo | lo hi c p Hc Ho Hcl Hl
                 | lo mid hi pb pr Ho Hcl Hlo Hmid Hb Hr].
  - injection H as <-. apply steps_refl.
  - destruct (exec_instr zero_loops c st) as [st1|] eqn:He; [|discriminate].
    eapply steps_step; [apply (step_char source lp lo c st st1); auto|].
    exact (IH _ _ _ Hl st1 st' H).
  - destruct (in_tape (cell st)) eqn:Hin; [|discriminate].
    pose proof (step_open source lp (set_source_ptr st lo) lo Ho eq_refl Hin)
      as Hs.
    cbn [tape cell set_source_ptr] in Hs.
    destruct (tape st (cell st) =? 0) eqn:Hz.
    + rewrite Hlo in Hs. eapply steps_step; [exact Hs|].
      exact (IH _ _ _ Hr st st' H).
    + destruct (m_exec fuel pb st) as [st1|] eqn:Hbody; [|discriminate].
      assert (Hloop : placed source lp lo hi (ILoop pb :: pr))
        by (eapply placed_loop; eauto).
      pose proof (IH _ _ _ Hb _ _ Hbody) as Hss1.
      pose proof (IH _ _ _ Hloop _ _ H) as Hss2.
      eapply steps_step; [exact Hs|].
      eapply steps_trans; [exact Hss1|].
      pose proof (placed_le _ _ _ _ _ Hb).
      pose proof (placed_le _ _ _ _ _ Hr).
      destruct (steps_cases _ _ _ _ Hss2) as [E|(st2 & Hs2 & Hss3)].
      * apply (f_equal source_ptr) in E. cbn in E. lia.
      * eapply steps_step; [|exact Hss3].
        rewrite (step_close_as_open source lp lo mid
                   (set_source_ptr st1 mid)); auto.
Qed.

(** What the machine computes across a placed piece, structured
    execution computes. *)
Lemma placed_backward n :
  forall lo hi p, placed source lp lo hi p ->
  forall fuel st st_end,
    (fuel <= n)%nat ->
    run_loop fuel source lp (set_source_ptr st lo) = Some st_end ->
    exists fuel1 st1 fuelm,
      (fuel1 <= fuel)%nat /\
      run_loop fuel1 source lp (set_source_ptr st1 hi) = Some st_end /\
      m_exec fuelm p st = Some st1.
Proof.
  induction n as [n IHn] using lt_wf_ind.
  intros lo hi p Hl fuel st st_end Hle Hrun.
  destruct Hl as [lo | lo hi c p Hc Ho Hcl Hl
                 | lo mid hi pb pr Ho Hcl Hlo Hmid Hb Hr].
  - exists fuel, st, 1%nat. split; [lia|]. split; [exact Hrun | reflexivity].
  - pose proof (src_at_Some _ _ _ Hc) as Hin.
    destruct fuel as [|f]; cbn [run_loop] in Hrun;
      cbn [source_ptr set_source_ptr] in Hrun;
      destruct (Z.ltb_spec lo (source_length source));
      try lia; [discriminate|].
    unfold step in Hrun. cbn [source_ptr set_source_ptr] in Hrun.
    rewrite Hc in Hrun.
    destruct (exec_instr lp c (set_source_ptr st lo)) as [st2|] eqn:He;
      [|discriminate].
    destruct (exec_instr_cursor_free_back lp zero_loops c st st2 lo Ho Hcl He)
      as (st1 & He1 & ->).
    cbn [source_ptr set_source_ptr] in Hrun.
    change (set_source_ptr (set_source_ptr st1 lo) (lo + 1))
      with (set_source_ptr st1 (lo + 1)) in Hrun.
    destruct (IHn f ltac:(lia) _ _ _ Hl f st1 st_end (le_n _) Hrun)
      as (fuel1 & st' & fuelm & Hf1 & Hrun1 & Hex).
    exists fuel1, st', (S fuelm). split; [lia|]. split; [exact Hrun1|].
    cbn [m_exec]. now rewrite He1.
  - pose proof (src_at_Some _ _ _ Ho) as Hin.
    destruct fuel as [|f]; cbn [run_loop] in Hrun;
      cbn [source_ptr set_source_ptr] in Hrun;
      destruct (Z.ltb_spec lo (source_length source));
      try lia; [discriminate|].
    destruct (in_tape (cell st)) eqn:Htape.
    2:{ unfold step in Hrun. cbn [source_ptr set_source_ptr] in Hrun.
        rewrite Ho in Hrun. unfold exec_instr in Hrun.
        cbn [Ascii.eqb Bool.eqb cell set_source_ptr] in Hrun.
        rewrite Htape in Hrun. discriminate Hrun. }
    rewrite (step_open source lp (set_source_ptr st lo) lo Ho eq_refl Htape)
      in Hrun.
    cbn [tape cell set_source_ptr] in Hrun.
    destruct (tape st (cell st) =? 0) eqn:Hz.
    + rewrite Hlo in Hrun.
      change (set_source_ptr (set_source_ptr st lo) (mid + 1))
        with (set_source_ptr st (mid + 1)) in Hrun.
      destruct (IHn f ltac:(lia) _ _ _ Hr f st st_end (le_n _) Hrun)
        as (fuel1 & st' & fuelm & Hf1 & Hrun1 & Hex).
      exists fuel1, st', (S fuelm). split; [lia|]. split; [exact Hrun1|].
      cbn [m_exec]. now rewrite Htape, Hz.
    + change (set_source_ptr (set_source_ptr st lo) (lo + 1))
        with (set_source_ptr st (lo + 1)) in Hrun.
      destruct (IHn f ltac:(lia) _ _ _ Hb f st st_end (le_n _) Hrun)
        as (fuel1 & st1 & fm1 & Hf1 & Hrun1 & Hex1).
      assert (Hloop : placed source lp lo hi (ILoop pb :: pr))
        by (eapply placed_loop; eauto).
      rewrite (run_loop_close_as_open source lp lo mid
                 (set_source_ptr st1 mid) fuel1 Ho Hcl Hlo Hmid eq_refl)
        in Hrun1.
      change (set_source_ptr (set_source_ptr st1 mid) lo)
        with (set_source_ptr st1 lo) in Hrun1.
      destruct (IHn fuel1 ltac:(lia) _ _ _ Hloop fuel1 st1 st_end (le_n _)
                  Hrun1)
        as (fuel2 & st2 & fm2 & Hf2 & Hrun2 & Hex2).
      exists fuel2, st2, (S (Nat.max fm1 fm2)).
      split; [lia|]. split; [exact Hrun2|].
      cbn [m_exec]. rewrite Htape, Hz.
      rewrite (m_exec_mono fm1 (Nat.max fm1 fm2) pb st st1
                 (Nat.le_max_l _ _) Hex1).
      apply (m_exec_mono fm2); [apply Nat.le_max_r | exact Hex2].
Qed.

End Structured.

(** A run of the machine on a structured program, both ways. *)
Lemma shape_run source p loops0 st :
  shape source p ->
  (forall fuel st',
      m_exec fuel p st = Some st' ->
      exists fuel',
        ExecuteSource fuel' source loops0 st
        = Some (put (set_source_ptr st' (source_length source))
                    (bytes_of_string nl))) /\
  (forall fuel st_end,
      ExecuteSource fuel source loops0 st = Some st_end ->
      exists fuel' st',
        m_exec fuel' p st = Some st' /\
        st_end = put (set_source_ptr st' (source_length source))
                     (bytes_of_string nl)).
Proof.
  intros Hp.
  destruct (scan_shape source source p Hp 0 (mkResolver [] loops0 [])
              (sits_self source)) as (_ & _ & Hl).
  rewrite <- InitLoops_loops in Hl. cbn [Z.add] in Hl.
  split.
  - intros fuel st' Hex.
    pose proof (placed_forward source _ fuel _ _ _ Hl st st' Hex) as Hss.
    destruct (steps_run_loop _ _ _ _ Hss ltac:(cbn; lia)) as [fuel' Hrun].
    exists fuel'. unfold ExecuteSource. cbv zeta. now rewrite Hrun.
  - intros fuel st_end Hrun. unfold ExecuteSource in Hrun. cbv zeta in Hrun.
    destruct (run_loop fuel source (loops (InitLoops source loops0))
                (set_source_ptr st 0)) as [stx|] eqn:Hloop; [|discriminate].
    injection Hrun as <-.
    destruct (placed_backward source _ fuel _ _ _ Hl fuel st stx (le_n _)
                Hloop) as (fuel1 & st1 & fuelm & _ & Hrun1 & Hex).
    exists fuelm, st1. split; [exact Hex|].
    destruct fuel1; cbn [run_loop] in Hrun1;
      cbn [source_ptr set_source_ptr] in Hrun1;
      destruct (Z.ltb_spec (source_length source) (source_length source));
      try lia; injection Hrun1 as <-; reflexivity.
Qed.

(** X13.  On a balanced program the machine with its jump table does
    what the program says when read as structured loops.  The program is
    the text of one structured program [p], whose characters are no
    brackets and whose loops are the bracket pairs; and for every content
    of [loops] and every machine state, every result of running [p]
    (test the current cell, run the body, test again) is the result of
    [ExecuteSource], cursor at the end and final newline written, and
    every result of [ExecuteSource] is one. *)
Theorem jump_table_runs_structured_loops :
  forall source,
    balanced source ->
    exists p,
      shape source p /\ flatten p = source /\
      forall loops0 st,
        (forall fuel st',
            m_exec fuel p st = Some st' ->
            exists fuel',
              ExecuteSource fuel' source loops0 st
              = Some (put (set_source_ptr st' (source_length source))
                          (bytes_of_string nl))) /\
        (forall fuel st_end,
            ExecuteSource fuel source loops0 st = Some st_end ->
            exists fuel' st',
              m_exec fuel' p st = Some st' /\
              st_end = put (set_source_ptr st' (source_length source))
                           (bytes_of_string nl)).
Proof.
  intros source Hb.
  destruct (balanced_shape_len (List.length source) source (le_n _) Hb)
    as [p Hp].
  exists p. split; [exact Hp|]. split; [now apply shape_flatten|].
  intros loops0 st. apply shape_run. exact Hp.
Qed.

Lemma jump_table_runs_structured_loops_witness :
  exists p fuel' st',
    shape (prog "+++[.-]") p /\
    m_exec fuel' p (fresh []) = Some st' /\
    stdout st' = [3; 2; 1].
Proof.
  destruct (jump_table_runs_structured_loops (prog "+++[.-]") eq_refl)
    as (p & Hshape & _ & Hrun).
  destruct (Hrun zero_loops (fresh [])) as [_ Hback].
  assert (Hm : exists st_end,
             ExecuteSource 20 (prog "+++[.-]") zero_loops (fresh [])
             = Some st_end /\ stdout st_end = [3; 2; 1] ++ [10])
    by (eexists; split; vm_compute; reflexivity).
  destruct Hm as (st_end & Hm & Hout).
  destruct (Hback 20%nat st_end Hm) as (fuel' & st' & Hex & Hend).
  exists p, fuel', st'. split; [exact Hshape|]. split; [exact Hex|].
  rewrite Hend in Hout. cbn [stdout put set_source_ptr] in Hout.
  now apply app_inj_tail in Hout as [Hout _].
Defined.

(* ================================================================== *)
(** ** Comments *)

(** A character without a [case] in the [switch] does nothing. *)
Lemma exec_instr_comment lp c st :
  is_command c = false -> exec_instr lp c st = Some st.
Proof.
  unfold is_command. intros H.
  repeat (apply orb_false_iff in H as [H ?]).
  unfold exec_instr.
  repeat match goal with E : Ascii.eqb c _ = false |- _ =>
           rewrite E; clear E end.
  reflexivity.
Qed.

Lemma shape_filter l p :
  shape l p ->
  exists q, stripped p q /\ shape (filter is_command l) q.
Proof.
  induction 1 as [| c l p Ho Hc Hs IH | body rest pb pr Hb IHb Hr IHr].
  - exists []. split; constructor.
  - destruct IH as (q & Hq & Hsq). cbn [filter].
    destruct (is_command c) eqn:Hcmd.
    + exists (IChar c :: q). split; [now apply stripped_keep|].
      now constructor.
    + exists q. split; [now apply stripped_drop | exact Hsq].
  - destruct IHb as (qb & Hqb & Hsb). destruct IHr as (qr & Hqr & Hsr).
    exists (ILoop qb :: qr). split; [now constructor|].
    cbn [filter]. change (is_command "[") with true. cbn iota.
    rewrite filter_app. cbn [filter]. change (is_command "]") with true.
    cbn iota. now constructor.
Qed.

Lemma stripped_forward fuel : forall p q st st',
  stripped p q -> m_exec fuel p st = Some st' -> m_exec fuel q st = Some st'.
Proof.
  induction fuel as [|fuel IH]; intros p q st st' Hs H; [discriminate|].
  cbn [m_exec] in H.
  destruct Hs as [| c p q Hc Hs | c p q Hc Hs | pb qb pr qr Hb Hr].
  - exact H.
  - rewrite (exec_instr_comment _ _ _ Hc) in H.
    apply (m_exec_mono fuel); [lia | now apply (IH p)].
  - cbn [m_exec].
    destruct (exec_instr zero_loops c st) as [st1|]; [|discriminate].
    now apply (IH p).
  - cbn [m_exec]. destruct (in_tape (cell st)); [|discriminate].
    destruct (tape st (cell st) =? 0); [now apply (IH pr)|].
    destruct (m_exec fuel pb st) as [st1|] eqn:Hbody; [|discriminate].
    rewrite (IH _ _ _ _ Hb Hbody).
    apply (IH (ILoop pb :: pr)); [now constructor | exact H].
Qed.

Lemma stripped_backward fuel : forall p q st st',
  stripped p q -> m_exec fuel q st = Some st' ->
  exists fuel', m_exec fuel' p st = Some st'.
Proof.
  induction fuel as [|fuel IH]; intros p q st st' Hs; [discriminate|].
  revert st st'.
  induction Hs as [| c p q Hc Hs IHs | c p q Hc Hs _
                  | pb qb pr qr Hb _ Hr _]; intros st st' H.
  - exists 1%nat. exact H.
  - destruct (IHs _ _ H) as [f Hf]. exists (S f). cbn [m_exec].
    now rewrite (exec_instr_comment _ _ _ Hc).
  - cbn [m_exec] in H.
    destruct (exec_instr zero_loops c st) as [st1|] eqn:He; [|discriminate].
    destruct (IH _ _ _ _ Hs H) as [f Hf]. exists (S f). cbn [m_exec].
    now rewrite He.
  - cbn [m_exec] in H. destruct (in_tape (cell st)) eqn:Hin; [|discriminate].
    destruct (tape st (cell st) =? 0) eqn:Hz.
    + destruct (IH _ _ _ _ Hr H) as [f Hf]. exists (S f). cbn [m_exec].
      now rewrite Hin, Hz.
    + destruct (m_exec fuel qb st) as [st1|] eqn:Hbody; [|discriminate].
      destruct (IH _ _ _ _ Hb Hbody) as [f1 Hf1].
      destruct (IH (ILoop pb :: pr) (ILoop qb :: qr) _ _
                  (stripped_loop _ _ _ _ Hb Hr) H) as [f2 Hf2].
      exists (S (Nat.max f1 f2)). cbn [m_exec]. rewrite Hin, Hz.
      rewrite (m_exec_mono f1 (Nat.max f1 f2) _ _ _ (Nat.le_max_l _ _) Hf1).
      apply (m_exec_mono f2); [apply Nat.le_max_r | exact Hf2].
Qed.

(** X14.  Comments are comments, inside loops too: a balanced program
    and the same program without the characters that are no commands run
    to the same result, cursor apart; if one of the two runs ends, so does
    the other. *)
Theorem comments_do_not_change_the_run :
  forall source loops0 loops1 st,
    balanced source ->
    (forall fuel st_end,
        ExecuteSource fuel source loops0 st = Some st_end ->
        exists fuel' st_end',
          ExecuteSource fuel' (filter is_command source) loops1 st
          = Some st_end' /\
          set_source_ptr st_end' 0 = set_source_ptr st_end 0) /\
    (forall fuel st_end,
        ExecuteSource fuel (filter is_command source) loops1 st
        = Some st_end ->
        exists fuel' st_end',
          ExecuteSource fuel' source loops0 st = Some st_end' /\
          set_source_ptr st_end' 0 = set_source_ptr st_end 0).
Proof.
  intros source loops0 loops1 st Hb.
  destruct (balanced_shape_len (List.length source) source (le_n _) Hb)
    as [p Hp].
  destruct (shape_filter _ _ Hp) as (q & Hpq & Hq).
  destruct (shape_run source p loops0 st Hp) as [Hfwd Hback].
  destruct (shape_run (filter is_command source) q loops1 st Hq)
    as [Hfwd' Hback'].
  split; intros fuel st_end Hrun.
  - destruct (Hback _ _ Hrun) as (f1 & st' & Hex & ->).
    destruct (Hfwd' _ _ (stripped_forward _ _ _ _ _ Hpq Hex)) as [f2 Hrun'].
    exists f2. eexists. split; [exact Hrun' | reflexivity].
  - destruct (Hback' _ _ Hrun) as (f1 & st' & Hex & ->).
    destruct (stripped_backward _ _ _ _ _ Hpq Hex) as [f2 Hex'].
    destruct (Hfwd _ _ Hex') as [f3 Hrun'].
    exists f3. eexists. split; [exact Hrun' | reflexivity].
Qed.

Lemma comments_do_not_change_the_run_witness :
  exists fuel' st_end',
    ExecuteSource fuel' (prog "+++[.-]") zero_loops (fresh []) = Some st_end' /\
    stdout st_end' = [3; 2; 1; 10].
Proof.
  destruct (comments_do_not_change_the_run
              (prog "+ + + [ print . then - ]") zero_loops zero_loops
              (fresh []) eq_refl) as [Hfwd _].
  assert (Hm : exists st_end,
             ExecuteSource 100 (prog "+ + + [ print . then - ]") zero_loops
               (fresh []) = Some st_end /\ stdout st_end = [3; 2; 1; 10])
    by (eexists; split; vm_compute; reflexivity).
  destruct Hm as (st_end & Hm & Hout).
  destruct (Hfwd 100%nat st_end Hm) as (fuel' & st_end' & Hrun & Heq).
  exists fuel', st_end'. split; [exact Hrun|].
  apply (f_equal stdout) in Heq. cbn [stdout set_source_ptr] in Heq.
  now rewrite Heq.
Defined.

(* ================================================================== *)
(** ** Brackets without a partner *)

Lemma scan_char_untouched source loops0 ptr r c :
  0 <= ptr -> src_at source ptr = Some c ->
  scan_inv source loops0 ptr r -> scan_untouched loops0 ptr r ->
  scan_untouched loops0 (ptr + 1) (scan_char c ptr r).
Proof.
  intros Hptr Hc [Hst Hnd Herr _ _ _] [Ha Hp Hr].
  destruct (Ascii.eqb_spec c "[") as [->|Hno].
  - rewrite scan_char_open. constructor; cbn [stack loops errors].
    + intros i Hi. apply Ha. lia.
    + intros i [<-|Hi]; [apply Ha; lia | now apply Hp].
    + exact Hr.
  - destruct (Ascii.eqb_spec c "]") as [->|Hnc].
    + destruct (stack r) as [|top below] eqn:Hstack.
      * rewrite scan_char_close_empty by assumption.
        constructor; cbn [stack loops errors].
        -- intros i Hi. apply Ha. lia.
        -- intros i [].
        -- intros j Hj. apply in_app_or in Hj as [Hj|[Hj|[]]];
             [now apply Hr|]. injection Hj as <-. apply Ha. lia.
      * rewrite (scan_char_close_pop ptr r top below) by assumption.
        destruct (Hst top (or_introl eq_refl)) as [Htop Hstop].
        inversion Hnd as [|? ? Hnotin Hnd']; subst.
        constructor; cbn [stack loops errors].
        -- intros i Hi. rewrite !upd_other by lia. apply Ha. lia.
        -- intros i Hi.
           destruct (Hst i (or_intror Hi)) as [Hi1 _].
           assert (i <> top) by (intros ->; contradiction).
           rewrite !upd_other by lia. apply Hp. now right.
        -- intros j Hj. destruct (Herr _ Hj) as (j' & [= <-] & Hj1 & Hj2).
           assert (j <> top)
             by (intros ->; rewrite Hstop in Hj2; discriminate).
           rewrite !upd_other by lia. now apply Hr.
    + rewrite scan_char_plain by assumption. constructor.
      * intros i Hi. apply Ha. lia.
      * exact Hp.
      * exact Hr.
Qed.

Lemma scan_keeps_untouched source loops0 l : forall ptr r,
  0 <= ptr -> sits source ptr l ->
  scan_inv source loops0 ptr r -> scan_untouched loops0 ptr r ->
  scan_untouched loops0 (ptr + source_length l) (scan l ptr r).
Proof.
  induction l as [|c l IH]; intros ptr r Hptr Hs Hinv Hunt; cbn [scan].
  - unfold source_length. cbn. now rewrite Z.add_0_r.
  - apply sits_cons in Hs as [Hc Hs]. rewrite source_length_cons.
    replace (ptr + (source_length l + 1)) with (ptr + 1 + source_length l)
      by lia.
    apply IH; [lia | exact Hs | now apply scan_char_inv |].
    now apply (scan_char_untouched source).
Qed.

(** X15.  The resolver leaves alone the entry of every bracket without
    a partner: a reported close bracket and an open bracket still on the
    stack at the end of the scan keep the value [loops] held on entry,
    which is where the machine jumps from them. *)
Theorem unmatched_brackets_keep_entry :
  forall source loops0 k,
    In (MissingOpen k) (errors (InitLoops source loops0)) \/
    In k (stack (scan source 0 (mkResolver [] loops0 []))) ->
    loops (InitLoops source loops0) k = loops0 k.
Proof.
  intros source loops0 k Hk. rewrite InitLoops_loops.
  assert (Hunt : scan_untouched loops0 (0 + source_length source)
                   (scan source 0 (mkResolver [] loops0 []))).
  { apply (scan_keeps_untouched source); [lia | apply sits_self
                                          | apply scan_inv_start |].
    constructor; cbn [stack loops errors]; [reflexivity | |];
      intros ? []. }
  destruct Hunt as [_ Hp Hr].
  destruct Hk as [Hk|Hk]; [|now apply Hp].
  apply Hr. now apply InitLoops_missing_open.
Qed.

Lemma unmatched_brackets_keep_entry_witness :
  loops (InitLoops (prog "][[]") (fun _ => 77)) 0 = 77 /\
  loops (InitLoops (prog "][[]") (fun _ => 77)) 1 = 77.
Proof.
  split; apply unmatched_brackets_keep_entry.
  - left. vm_compute. auto.
  - right. vm_compute. auto.
Defined.
